(** * Rolling restart of the instance fleet: bin/lib/cli/instances.py

    Shallow embedding of the restart, stop and health-check commands of
    [bin/lib/cli/instances.py].  Every call the module makes to a
    collaborator (boto3's autoscaling client, [lib.ssh], [lib.ce_utils],
    [lib.instance], [lib.blue_green_deploy]) is an operation of the inductive
    family [api]; a world oracle answers it.  The program runs in a
    state-and-exception monad whose state holds the world, the log of every
    call made (with its answer) and every log line written, and the single
    [modified_groups] dictionary that [instances_restart] shares with
    [restart_one_instance] by reference.  Python exceptions leave the state
    as it was when they were raised, as in the interpreter.  The unbounded
    [while True] polling loops take a fuel argument; running out of fuel is
    the outcome [RDiverge] (the loop did not return within the budget). *)

From Stdlib Require Import String Ascii ZArith List Bool Lia.
Import ListNotations.
Open Scope string_scope.
Open Scope Z_scope.

(** ** Python values *)

(** The exceptions the module meets.  [RuntimeError] is raised by the module
    itself; [CalledProcessError] is what [lib.ssh.exec_remote] raises when
    the remote command fails (see [is_everything_awesome]); [ClientError]
    is botocore's error for a failed cloud-API call. *)
Inductive exn : Type :=
| RuntimeError (msg : string)
| CalledProcessError (cmd : list string)
| ClientError (operation : string).

(** [except RuntimeError]: the only clause of the restart loop. *)
Definition is_runtime_error (e : exn) : bool :=
  match e with RuntimeError _ => true | _ => false end.

(** Python's [str.strip()] with no argument removes leading and trailing
    whitespace: the ASCII controls 9-13, 28-31, the space, and (reading a
    byte as a Latin-1 code point) U+0085 and U+00A0. *)
Definition py_isspace (c : ascii) : bool :=
  let n := nat_of_ascii c in
  (Nat.leb 9 n && Nat.leb n 13) || (Nat.leb 28 n && Nat.leb n 32)
  || Nat.eqb n 133 || Nat.eqb n 160.

Fixpoint lstrip_chars (l : list ascii) : list ascii :=
  match l with
  | c :: r => if py_isspace c then lstrip_chars r else l
  | [] => []
  end.

Definition py_strip (s : string) : string :=
  string_of_list_ascii
    (rev (lstrip_chars (rev (lstrip_chars (list_ascii_of_string s))))).

(** A Python [Dict[str, int]]: insertion-ordered; assigning to a present key
    replaces its value in place, a new key goes to the end. *)
Definition dict := list (string * Z).

Fixpoint dict_set (k : string) (v : Z) (d : dict) : dict :=
  match d with
  | [] => [(k, v)]
  | (k', v') :: r => if String.eqb k k' then (k, v) :: r
                     else (k', v') :: dict_set k v r
  end.

Fixpoint dict_get (k : string) (d : dict) : option Z :=
  match d with
  | [] => None
  | (k', v') :: r => if String.eqb k k' then Some v' else dict_get k r
  end.

(** ** Configuration ([lib.env]) *)

(** [Environment.PROD] and the remaining members of the enumeration. *)
Inductive Environment : Type :=
| PROD
| OtherEnv (value : string).

Definition env_is_prod (e : Environment) : bool :=
  match e with PROD => true | OtherEnv _ => false end.

Record Config : Type := mkConfig {
  cfg_env : Environment;
  cfg_supports_blue_green : bool   (* cfg.env.supports_blue_green *)
}.

(** ** Data returned by the collaborators *)

(** [instance.describe_autoscale()]: the autoscaling view of an instance. *)
Record AsInstanceStatus : Type := mkAsInstanceStatus {
  AutoScalingGroupName : string;
  LifecycleState : string
}.

(** [get_autoscaling_group(name)]: the fields the module reads. *)
Record AsGroup : Type := mkAsGroup {
  GroupName : string;            (* as_group["AutoScalingGroupName"] *)
  DesiredCapacity : Z;
  MinSize : Z
}.

(** What [instance.update()] refreshes: [instance.instance.state["Name"]]
    and [instance.elb_health]. *)
Record InstanceView : Type := mkInstanceView {
  state_name : string;
  elb_health : string
}.

(** ** Calls to the collaborators; an instance is named by its id. *)
Inductive api : Type -> Type :=
(* lib.ce_utils *)
| AreYouSure (what : string) : api bool
| DescribeCurrentRelease : api string
| SetUpdateMessage (msg : string) : api unit
(* WaitForAutoscaleState: lib.ce_utils.wait_for_autoscale_state, a polling
   loop outside this module, taken as one call that may block *)
| WaitForAutoscaleState (inst : string) (state : string) : api unit
(* lib.blue_green_deploy.BlueGreenDeployment and lib.amazon *)
| GetActiveColor : api string
| GetTargetGroupArn (color : string) : api string
| TargetGroupArnFor : api string
| ElbInstances (arn : string) : api (list string)
| GetAutoscalingGroup (group : string) : api AsGroup
(* lib.instance.Instance *)
| DescribeAutoscale (inst : string) : api (option AsInstanceStatus)
| InstanceUpdate (inst : string) : api InstanceView
(* boto3 autoscaling client *)
| SetInstanceProtection (group : string) (ids : list string) (protect : bool)
    : api unit
| EnterStandby (ids : list string) (group : string) (decrement : bool)
    : api unit
| ExitStandby (ids : list string) (group : string) : api unit
| UpdateDesiredCapacity (group : string) (desired : Z) : api unit
(* lib.ssh *)
| ExecRemote (inst : string) (argv : list string) : api string
| ExecRemoteAll (insts : list string) (argv : list string) : api unit
(* time.sleep *)
| Sleep (secs : Z) : api unit
(* lib.instance.print_instances, lib.ce_utils.is_running_on_admin_node *)
| PrintInstances (insts : list string) (number : bool) : api unit
| IsRunningOnAdminNode : api bool
(* builtins.input; lib.ssh.run_remote_shell *)
| Input (prompt : string) : api string
| RunRemoteShell (inst : string) : api unit.

(** Outcome of a computation: a value, a raised exception, or a polling
    loop that had not returned when its fuel ran out. *)
Inductive res (A : Type) : Type :=
| ROk (a : A)
| RExn (e : exn)
| RDiverge.
Arguments ROk {A} a.
Arguments RExn {A} e.
Arguments RDiverge {A}.

Inductive level : Type := Debug | Info | Warning | Error.

(** What the run leaves behind, most recent first. *)
Inductive event : Type :=
| Call {A : Type} (a : api A) (r : res A)
| Log (lvl : level) (msg : string)
| Print (s : string).

(** The calls that change the cloud, the instances or the site. *)
Definition is_mutating (e : event) : bool :=
  match e with
  | Call a _ =>
      match a with
      | SetUpdateMessage _ | SetInstanceProtection _ _ _ | EnterStandby _ _ _
      | ExitStandby _ _ | UpdateDesiredCapacity _ _ | ExecRemote _ _
      | ExecRemoteAll _ _ => true
      | _ => false
      end
  | _ => false
  end.

(** The [decrement] flags of the [enter_standby] calls in a trace. *)
Fixpoint standby_flags (tr : list event) : list bool :=
  match tr with
  | [] => []
  | Call (EnterStandby _ _ d) _ :: r => d :: standby_flags r
  | _ :: r => standby_flags r
  end.

(** The [update_auto_scaling_group] calls in a trace. *)
Fixpoint capacity_updates (tr : list event) : list (string * Z) :=
  match tr with
  | [] => []
  | Call (UpdateDesiredCapacity g n) _ :: r => (g, n) :: capacity_updates r
  | _ :: r => capacity_updates r
  end.

(** The instances whose remote commands were run, one entry per command. *)
Fixpoint remote_targets (tr : list event) : list string :=
  match tr with
  | [] => []
  | Call (ExecRemote i _) _ :: r => i :: remote_targets r
  | Call (ExecRemoteAll is _) _ :: r => is ++ remote_targets r
  | _ :: r => remote_targets r
  end.

(** The instances that [describe_autoscale] was asked about. *)
Fixpoint described (tr : list event) : list string :=
  match tr with
  | [] => []
  | Call (DescribeAutoscale i) _ :: r => i :: described r
  | _ :: r => described r
  end.

(** The [instance.update()] calls in a trace. *)
Fixpoint instance_updates (tr : list event) : nat :=
  match tr with
  | [] => O
  | Call (InstanceUpdate _) _ :: r => S (instance_updates r)
  | _ :: r => instance_updates r
  end.

Definition msg_failed_restarting := "Failed restarting %s - skipping: %s".

(** The [LOGGER.error] lines of the restart loop. *)
Fixpoint failure_logs (tr : list event) : nat :=
  match tr with
  | [] => O
  | Log Error m :: r =>
      if String.eqb m msg_failed_restarting then S (failure_logs r)
      else failure_logs r
  | _ :: r => failure_logs r
  end.

(** ** The monad *)

Section Program.

(** The world and the collaborators' answers to the module's calls. *)
Context {W : Type}.
Variable answer : forall A : Type, W -> api A -> W * res A.

Record St : Type := mkSt {
  st_world : W;
  st_trace : list event;     (* most recent first *)
  st_groups : dict           (* the [modified_groups] dictionary *)
}.

Definition M (A : Type) : Type := St -> St * res A.

Definition ret {A} (a : A) : M A := fun s => (s, ROk a).

Definition bind {A B} (m : M A) (k : A -> M B) : M B :=
  fun s =>
    match m s with
    | (s', ROk a) => k a s'
    | (s', RExn e) => (s', RExn e)
    | (s', RDiverge) => (s', RDiverge)
    end.

Definition raise {A} (e : exn) : M A := fun s => (s, RExn e).

Definition diverge {A} : M A := fun s => (s, RDiverge).

Definition emit (ev : event) : M unit :=
  fun s => (mkSt (st_world s) (ev :: st_trace s) (st_groups s), ROk tt).

Definition log (lvl : level) (msg : string) : M unit := emit (Log lvl msg).

Definition print (msg : string) : M unit := emit (Print msg).

(** A call to a collaborator: the world answers, the call is recorded. *)
Definition call {A} (a : api A) : M A :=
  fun s =>
    let (w', r) := answer A (st_world s) a in
    (mkSt w' (Call a r :: st_trace s) (st_groups s), r).

Definition get_groups : M dict := fun s => (s, ROk (st_groups s)).

Definition put_groups (d : dict) : M unit :=
  fun s => (mkSt (st_world s) (st_trace s) d, ROk tt).

(** [try: m except ...]: the handler says which exceptions it catches. *)
Definition try_except {A} (m : M A) (handler : exn -> option (M A)) : M A :=
  fun s =>
    match m s with
    | (s', RExn e) =>
        match handler e with
        | Some h => h s'
        | None => (s', RExn e)
        end
    | o => o
    end.

End Program.

Arguments ret {W A} a.
Arguments bind {W A B} m k.
Arguments raise {W A} e.
Arguments diverge {W A}.
Arguments emit {W} ev.
Arguments log {W} lvl msg.
Arguments print {W} msg.
Arguments call {W} answer {A} a.
Arguments get_groups {W}.
Arguments put_groups {W} d.
Arguments try_except {W A} m handler.

Declare Scope py_scope.
Delimit Scope py_scope with py.
Notation "x <- m ;; k" := (bind m (fun x => k))
  (at level 61, m at next level, right associativity) : py_scope.
Notation "m ;; k" := (bind m (fun _ => k))
  (at level 61, right associativity) : py_scope.
Open Scope py_scope.

(** ** bin/lib/cli/instances.py *)

Section Instances.

Context {W : Type}.
Variable answer : forall A : Type, W -> api A -> W * res A.

Local Abbreviation call := (call answer).
Local Abbreviation M := (@M W).

Definition restart_cmd := ["sudo"; "systemctl"; "restart"; "compiler-explorer"].
Definition stop_cmd := ["sudo"; "systemctl"; "stop"; "compiler-explorer"].
Definition healthcheck_cmd :=
  ["curl"; "-s"; "--max-time"; "2"; "http://127.0.0.1/healthcheck"].

(** [get_instances_for_environment] (and [pick_instances], which returns
    it): the active colour's target group, or the single legacy one. *)
Definition get_instances_for_environment (cfg : Config) : M (list string) :=
  if cfg_supports_blue_green cfg then
    try_except
      (active_color <- call GetActiveColor;;
       active_tg_arn <- call (GetTargetGroupArn active_color);;
       call (ElbInstances active_tg_arn))
      (* the message's suffix [{cfg.env.value}: {e}] is left out: this
         section has no rendering of environments and exceptions *)
      (fun _ => Some (raise (RuntimeError
         "Failed to get instances for blue-green environment")))
  else
    arn <- call TargetGroupArnFor;;
    call (ElbInstances arn).

Definition pick_instances (cfg : Config) : M (list string) :=
  get_instances_for_environment cfg.

(** [instances_stop]. *)
Definition instances_stop (cfg : Config) : M unit :=
  if env_is_prod (cfg_env cfg) then
    print "Operation aborted. This would bring down the site";;
    print "If you know what you are doing, edit the code in bin/lib/ce.py, function instances_stop_cmd"
  else
    sure <- call (AreYouSure "stop all instances");;
    if sure then
      insts <- pick_instances cfg;;
      call (ExecRemoteAll insts stop_cmd)
    else ret tt.

(** The [while True] loop of [wait_for_elb_state]: one fuel unit per
    turn. *)
Fixpoint elb_state_loop (fuel : nat) (inst state : string) : M unit :=
  match fuel with
  | O => diverge
  | S f =>
      v <- call (InstanceUpdate inst);;
      let instance_state := state_name v in
      if negb (String.eqb instance_state "running") then
        raise (RuntimeError
          ("Instance no longer running (state " ++ instance_state ++ ")"))
      else
        log Debug "State is %s";;
        if String.eqb (elb_health v) state then log Info "...done"
        else call (Sleep 5);; elb_state_loop f inst state
  end.

(** [wait_for_elb_state]. *)
Definition wait_for_elb_state (fuel : nat) (inst state : string) : M unit :=
  log Info "Waiting for %s to reach ELB state '%s'...";;
  elb_state_loop fuel inst state.

(** [is_everything_awesome]. *)
Definition is_everything_awesome (inst : string) : M bool :=
  try_except
    (response <- call (ExecRemote inst healthcheck_cmd);;
     ret (String.eqb (py_strip response) "Everything is awesome"))
    (fun e => match e with
              | CalledProcessError _ => Some (ret false)
              | _ => None
              end).

(** The [while not is_everything_awesome(instance)] loop. *)
Fixpoint healthok_loop (fuel : nat) (inst : string) : M unit :=
  match fuel with
  | O => diverge
  | S f =>
      ok <- is_everything_awesome inst;;
      if ok then ret tt
      else print ".";; call (Sleep 10);; healthok_loop f inst
  end.

(** [wait_for_healthok] ([sys.stdout.write] is a [print] here). *)
Definition wait_for_healthok (fuel : nat) (inst : string) : M unit :=
  log Info "Waiting for instance to be Online %s";;
  print "Waiting";;
  healthok_loop fuel inst;;
  print "Ok, Everything is awesome!".

(** Lines 224-238 of [restart_one_instance]: protect the instance, check
    the group's capacity, enter standby. *)
Definition protect_and_standby (as_group_name inst : string) : M unit :=
  log Info "Enabling instance protection for %s";;
  call (SetInstanceProtection as_group_name [inst] true);;
  as_group <- call (GetAutoscalingGroup as_group_name);;
  let adjustment_required :=
    Z.eqb (DesiredCapacity as_group) (MinSize as_group) in
  (if adjustment_required then
     log Info "Group '%s' needs to be adjusted to keep enough nodes";;
     mg <- get_groups;;
     put_groups (dict_set (GroupName as_group) (DesiredCapacity as_group) mg)
   else ret tt);;
  log Info "Putting %s into standby";;
  call (EnterStandby [inst] as_group_name (negb adjustment_required)).

(** Lines 239-253: restart the service while in standby and come back. *)
Definition restart_in_standby (fuel : nat) (as_group_name inst : string)
    : M unit :=
  call (WaitForAutoscaleState inst "Standby");;
  log Info "Restarting service on %s";;
  restart_response <- call (ExecRemote inst restart_cmd);;
  (if negb (String.eqb restart_response "") then
     log Warning "Restart gave some output: %s"
   else ret tt);;
  wait_for_healthok fuel inst;;
  log Info "Moving %s out of standby";;
  call (ExitStandby [inst] as_group_name);;
  call (WaitForAutoscaleState inst "InService");;
  wait_for_elb_state fuel inst "healthy";;
  log Info "Disabling instance protection for %s";;
  call (SetInstanceProtection as_group_name [inst] false);;
  log Info "Instance restarted ok".

(** [restart_one_instance]; [modified_groups] is the shared dictionary of
    the state. *)
Definition restart_one_instance (fuel : nat) (as_group_name inst : string)
    : M unit :=
  protect_and_standby as_group_name inst;;
  restart_in_standby fuel as_group_name inst.

(** One turn of the [for] loop of [instances_restart]; [failed] is the
    local flag. *)
Definition restart_iteration (fuel : nat) (inst : string) (failed : bool)
    : M bool :=
  log Info "Restarting %s (%d of %d)...";;
  as_instance_status <- call (DescribeAutoscale inst);;
  match as_instance_status with
  | None =>
      log Warning "Skipping %s as it is no longer in the ASG";;
      ret failed
  | Some st =>
      let as_group_name := AutoScalingGroupName st in
      if negb (String.eqb (LifecycleState st) "InService") then
        log Warning "Skipping %s as it is not InService (%s)";;
        ret failed
      else
        try_except
          (restart_one_instance fuel as_group_name inst;; ret failed)
          (fun e => if is_runtime_error e then
                      Some (log Error msg_failed_restarting;; ret true)
                    else None)
  end.

Fixpoint restart_loop (fuel : nat) (insts : list string) (failed : bool)
    : M bool :=
  match insts with
  | [] => ret failed
  | inst :: rest =>
      failed' <- restart_iteration fuel inst failed;;
      restart_loop fuel rest failed'
  end.

(** [for group, desired in modified_groups.items(): ...] *)
Fixpoint restore_groups (items : dict) : M unit :=
  match items with
  | [] => ret tt
  | (group, desired) :: rest =>
      log Info "Putting desired instances for %s back to %d";;
      call (UpdateDesiredCapacity group desired);;
      restore_groups rest
  end.

(** [instances_restart]: [None] is the early [return] (exit status 0),
    [Some c] the final [sys.exit(c)].  The timing lines are not modelled. *)
Definition instances_restart (fuel : nat) (cfg : Config) (motd : string)
    : M (option Z) :=
  release <- call DescribeCurrentRelease;;
  sure <- call (AreYouSure ("restart all instances with version " ++ release));;
  if negb sure then ret None
  else
    call (SetUpdateMessage motd);;
    put_groups [];;
    to_restart <- pick_instances cfg;;
    failed <- restart_loop fuel to_restart false;;
    mg <- get_groups;;
    restore_groups mg;;
    call (SetUpdateMessage "");;
    print "Instances restarted in %s seconds";;
    ret (Some (if failed then 1 else 0)).

End Instances.

(** ** The other commands of bin/lib/cli/instances.py *)

(** [shlex.quote]: the empty string becomes [''], a string made only of
    the characters [\w@%+=:,./-] (with [re.ASCII]) is left as it is, any
    other is put in single quotes, each single quote inside becoming
    the five characters quote, double quote, quote, double quote, quote. *)
Definition shlex_safe (c : ascii) : bool :=
  let n := nat_of_ascii c in
  (Nat.leb 48 n && Nat.leb n 57) || (Nat.leb 65 n && Nat.leb n 90)
  || (Nat.leb 97 n && Nat.leb n 122)
  || existsb (fun d => Nat.eqb n (nat_of_ascii d))
       ["_"; "@"; "%"; "+"; "="; ":"; ","; "."; "/"; "-"]%char.

Definition squote : ascii := "'"%char.
Definition dquote : ascii := "034"%char.

(** The [s.replace] of [shlex.quote]. *)
Fixpoint escape_squotes (s : string) : string :=
  match s with
  | EmptyString => EmptyString
  | String c r =>
      if Ascii.eqb c squote then
        String squote (String dquote (String squote (String dquote
          (String squote (escape_squotes r)))))
      else String c (escape_squotes r)
  end.

Fixpoint all_safe (s : string) : bool :=
  match s with
  | EmptyString => true
  | String c r => shlex_safe c && all_safe r
  end.

Definition shlex_quote (s : string) : string :=
  match s with
  | EmptyString => String squote (String squote EmptyString)
  | _ => if all_safe s then s
         else String squote (escape_squotes s ++ String squote EmptyString)
  end.

(** [shlex.join]: [' '.join(quote(arg) for arg in split_command)]. *)
Definition shlex_join (args : list string) : string :=
  String.concat " " (map shlex_quote args).

(** [int(s)] on a [str], base 10: surrounding whitespace is stripped, an
    optional sign, then decimal digits with single underscores between
    digits; anything else raises [ValueError] ([None]). *)
Definition digit_value (c : ascii) : option Z :=
  let n := nat_of_ascii c in
  if Nat.leb 48 n && Nat.leb n 57 then Some (Z.of_nat n - 48) else None.

Fixpoint int_digits (l : list ascii) (acc : Z) : option Z :=
  match l with
  | [] => Some acc
  | c :: r =>
      match digit_value c with
      | Some d => int_digits r (acc * 10 + d)
      | None =>
          if Ascii.eqb c "_"%char then
            match r with
            | d :: r' =>
                match digit_value d with
                | Some v => int_digits r' (acc * 10 + v)
                | None => None
                end
            | [] => None
            end
          else None
      end
  end.

Definition int_unsigned (l : list ascii) : option Z :=
  match l with
  | c :: r => match digit_value c with
              | Some d => int_digits r d
              | None => None
              end
  | [] => None
  end.

Definition py_int (s : string) : option Z :=
  match list_ascii_of_string (py_strip s) with
  | c :: r =>
      if Ascii.eqb c "-"%char then option_map Z.opp (int_unsigned r)
      else if Ascii.eqb c "+"%char then int_unsigned r
      else int_unsigned (c :: r)
  | [] => None
  end.

(** [l[i]] on a Python list: a negative index counts from the end; out of
    range raises [IndexError] ([None]). *)
Definition py_index {A} (l : list A) (i : Z) : option A :=
  let n := Z.of_nat (length l) in
  if (0 <=? i) && (i <? n) then nth_error l (Z.to_nat i)
  else if (- n <=? i) && (i <? 0) then nth_error l (Z.to_nat (n + i))
  else None.

Section InstancesMore.

Context {W : Type}.
Variable answer : forall A : Type, W -> api A -> W * res A.
(** [cfg.env.value] and [str(e)]: defined in [lib.env] and by the
    exceptions' classes, outside this module. *)
Variable env_value : Environment -> string.
Variable exn_str : exn -> string.

Local Abbreviation call := (call answer).
Local Abbreviation M := (@M W).

Definition start_cmd := ["sudo"; "systemctl"; "start"; "compiler-explorer"].

(** The [while True] loop of [pick_instance]. *)
Fixpoint pick_instance_loop (fuel : nat) (elb_instances : list string)
    : M string :=
  match fuel with
  | O => diverge
  | S f =>
      call (PrintInstances elb_instances true);;
      inst <- call (Input "Which instance? ");;
      match py_int inst with
      | Some i =>
          match py_index elb_instances i with
          | Some x => ret x
          | None => pick_instance_loop f elb_instances   (* IndexError *)
          end
      | None => pick_instance_loop f elb_instances       (* ValueError *)
      end
  end.

Definition pick_instance (fuel : nat) (cfg : Config) : M string :=
  elb_instances <- get_instances_for_environment answer cfg;;
  match elb_instances with
  | [x] => ret x
  | _ => pick_instance_loop fuel elb_instances
  end.

(** [instances_exec_all]. *)
Definition instances_exec_all (cfg : Config) (remote_cmd : list string)
    : M unit :=
  let escaped := shlex_join remote_cmd in
  sure <- call (AreYouSure ("exec command " ++ escaped ++ " in all instances"));;
  if negb sure then ret tt
  else
    print ("Running '" ++ escaped ++ "' on all instances");;
    insts <- pick_instances answer cfg;;
    call (ExecRemoteAll insts remote_cmd).

(** [instances_login]. *)
Definition instances_login (fuel : nat) (cfg : Config) : M unit :=
  instance <- pick_instance fuel cfg;;
  call (RunRemoteShell instance).

(** [instances_restart_one]: its [modified_groups] is a fresh dictionary. *)
Definition instances_restart_one (fuel : nat) (cfg : Config) : M unit :=
  instance <- pick_instance fuel cfg;;
  as_instance_status <- call (DescribeAutoscale instance);;
  match as_instance_status with
  | None => log Error "Failed restarting %s - was not in ASG"
  | Some st =>
      let as_group_name := AutoScalingGroupName st in
      put_groups [];;
      try_except (restart_one_instance answer fuel as_group_name instance)
        (fun e => if is_runtime_error e
                  then Some (log Error msg_failed_restarting) else None)
  end.

(** [instances_start]: [print] of two arguments joins them with a space. *)
Definition instances_start (cfg : Config) : M unit :=
  release <- call DescribeCurrentRelease;;
  print ("Starting version %s" ++ " " ++ release);;
  insts <- pick_instances answer cfg;;
  call (ExecRemoteAll insts start_cmd).

Definition active_marker (active_color color : string) : string :=
  if String.eqb active_color color then " (ACTIVE)" else "".

(** The blue or green half of the listing. *)
Definition print_color (label color active_color : string)
    (insts : list string) : M unit :=
  match insts with
  | _ :: _ =>
      print (label ++ active_marker active_color color ++ ":");;
      call (PrintInstances insts false)
  | [] => print (label ++ active_marker active_color color ++ ": No instances")
  end.

(** [instances_status]. *)
Definition instances_status (cfg : Config) : M unit :=
  if cfg_supports_blue_green cfg then
    try_except
      (blue_tg_arn <- call (GetTargetGroupArn "blue");;
       green_tg_arn <- call (GetTargetGroupArn "green");;
       active_color <- call GetActiveColor;;
       print ("Blue-Green Environment: " ++ env_value (cfg_env cfg));;
       print ("Active Color: " ++ active_color);;
       print "";;
       blue_instances <- call (ElbInstances blue_tg_arn);;
       print_color "Blue Instances" "blue" active_color blue_instances;;
       print "";;
       green_instances <- call (ElbInstances green_tg_arn);;
       print_color "Green Instances" "green" active_color green_instances;;
       match blue_instances, green_instances with
       | [], [] => ret tt
       | _, _ =>
           admin <- call IsRunningOnAdminNode;;
           if negb admin then
             print "";;
             print "Note: Service and Version information requires SSH access from admin node."
           else ret tt
       end)
      (fun e => Some (print ("Error: Failed to get blue-green status for "
                             ++ env_value (cfg_env cfg) ++ ": " ++ exn_str e)))
  else
    print ("Environment: " ++ env_value (cfg_env cfg));;
    arn <- call TargetGroupArnFor;;
    insts <- call (ElbInstances arn);;
    call (PrintInstances insts false).

End InstancesMore.

(** The process exit status: the early [return] exits with 0, [sys.exit(c)]
    with [c], an uncaught exception with 1; a run still polling has none. *)
Definition exit_status (r : res (option Z)) : option Z :=
  match r with
  | ROk None => Some 0
  | ROk (Some c) => Some c
  | RExn _ => Some 1
  | RDiverge => None
  end.

(** ** A concrete cloud for running the module on examples

    One autoscaling group whose desired and minimum capacity are tracked
    the way the autoscaling service does it: [enter_standby] with
    [ShouldDecrementDesiredCapacity] lowers the desired capacity by one,
    [exit_standby] raises it by one, [update_auto_scaling_group] sets it.
    An external scaler may change desired and min capacity at each group
    lookup ([t_scale]). *)
Record Toy : Type := mkToy {
  t_desired : Z;
  t_min : Z;
  t_scale : list (option (Z * Z));
  t_instances : list string;
  t_gone : list string;                 (* no longer in the ASG *)
  t_standby : list string;              (* lifecycle state Standby *)
  t_restart_err : list (string * exn);  (* the restart command raises *)
  t_compute : string;                   (* instance.instance.state["Name"] *)
  t_health_ok : bool;                   (* false: the curl probe fails *)
  t_others : dict                       (* desired capacity of other groups *)
}.

Definition toy_set_capacity (w : Toy) (d m : Z) (sc : list (option (Z * Z)))
    : Toy :=
  mkToy d m sc (t_instances w) (t_gone w) (t_standby w) (t_restart_err w)
    (t_compute w) (t_health_ok w) (t_others w).

Definition toy_set_other (w : Toy) (g : string) (n : Z) : Toy :=
  mkToy (t_desired w) (t_min w) (t_scale w) (t_instances w) (t_gone w)
    (t_standby w) (t_restart_err w) (t_compute w) (t_health_ok w)
    (dict_set g n (t_others w)).

(** The desired capacity of a group in the concrete cloud. *)
Definition toy_desired (w : Toy) (g : string) : Z :=
  if String.eqb g "asg-1" then t_desired w
  else match dict_get g (t_others w) with Some n => n | None => 0 end.

Definition toy_set_desired (w : Toy) (d : Z) : Toy :=
  toy_set_capacity w d (t_min w) (t_scale w).

Definition mem (x : string) (l : list string) : bool :=
  existsb (String.eqb x) l.

Fixpoint lookup_exn (x : string) (l : list (string * exn)) : option exn :=
  match l with
  | [] => None
  | (k, e) :: r => if String.eqb x k then Some e else lookup_exn x r
  end.

Fixpoint argv_eqb (a b : list string) : bool :=
  match a, b with
  | [], [] => true
  | x :: a', y :: b' => String.eqb x y && argv_eqb a' b'
  | _, _ => false
  end.

(** The group lookup first applies the next external change, if any. *)
Definition toy_lookup (w : Toy) : Toy :=
  match t_scale w with
  | Some (d, m) :: r => toy_set_capacity w d m r
  | None :: r => toy_set_capacity w (t_desired w) (t_min w) r
  | [] => w
  end.

Definition toy_answer (A : Type) (w : Toy) (a : api A) : Toy * res A :=
  match a in api T return Toy * res T with
  | AreYouSure _ => (w, ROk true)
  | DescribeCurrentRelease => (w, ROk "v1")
  | SetUpdateMessage _ => (w, ROk tt)
  | WaitForAutoscaleState _ _ => (w, ROk tt)
  | GetActiveColor => (w, ROk "blue")
  | GetTargetGroupArn c => (w, ROk ("tg-" ++ c))
  | TargetGroupArnFor => (w, ROk "tg")
  | ElbInstances _ => (w, ROk (t_instances w))
  | GetAutoscalingGroup g =>
      let w' := toy_lookup w in
      (w', ROk (mkAsGroup g (t_desired w') (t_min w')))
  | DescribeAutoscale i =>
      (w, ROk (if mem i (t_gone w) then None
               else Some (mkAsInstanceStatus "asg-1"
                      (if mem i (t_standby w) then "Standby" else "InService"))))
  | InstanceUpdate _ => (w, ROk (mkInstanceView (t_compute w) "healthy"))
  | SetInstanceProtection _ _ _ => (w, ROk tt)
  | EnterStandby _ _ dec =>
      ((if dec then toy_set_desired w (t_desired w - 1) else w), ROk tt)
  | ExitStandby _ _ => (toy_set_desired w (t_desired w + 1), ROk tt)
  | UpdateDesiredCapacity g n =>
      (if String.eqb g "asg-1" then toy_set_desired w n else toy_set_other w g n,
       ROk tt)
  | ExecRemote i argv =>
      if argv_eqb argv healthcheck_cmd then
        if t_health_ok w then (w, ROk ("Everything is awesome" ++ String "010" ""))
        else (w, RExn (CalledProcessError argv))
      else
        match lookup_exn i (t_restart_err w) with
        | Some e => (w, RExn e)
        | None => (w, ROk "")
        end
  | ExecRemoteAll _ _ => (w, ROk tt)
  | Sleep _ => (w, ROk tt)
  | PrintInstances _ _ => (w, ROk tt)
  | IsRunningOnAdminNode => (w, ROk true)
  | Input _ => (w, ROk "0")
  | RunRemoteShell _ => (w, ROk tt)
  end.

(** The end-to-end scenario of the design notes: [asg-1] at desired = min
    = 2 with two in-service instances. *)
Definition toy_fleet : Toy :=
  mkToy 2 2 [] ["i-1"; "i-2"] [] [] [] "running" true [].

(** [i-1] has left the group, [i-2] is in standby. *)
Definition toy_skip : Toy :=
  mkToy 2 2 [] ["i-1"; "i-2"] ["i-1"] ["i-2"] [] "running" true [].

(** Both instances' compute state is [stopped]. *)
Definition toy_stopped : Toy :=
  mkToy 2 2 [] ["i-1"; "i-2"] [] [] [] "stopped" true [].

(** The remote restart command fails on [i-1]. *)
Definition toy_restart_fails : Toy :=
  mkToy 2 2 [] ["i-1"; "i-2"] [] [] [("i-1", CalledProcessError restart_cmd)]
    "running" true [].

(** An external change brings [asg-1] to desired = min = 3 at the second
    group lookup. *)
Definition toy_rescaled : Toy :=
  mkToy 2 2 [None; Some (3, 3)] ["i-1"; "i-2"] [] [] [] "running" true [].

(** [i-1]'s compute state is [stopped] and its healthcheck fails. *)
Definition toy_unreachable : Toy :=
  mkToy 2 2 [] ["i-1"] [] [] [] "stopped" false [].

Definition blue_green : Config := mkConfig (OtherEnv "staging") true.

Definition start (w : Toy) : St := mkSt w [] [].

(** The two [continue] branches of the restart loop: no autoscaling status,
    or a lifecycle state other than [InService]. *)
Definition is_skipped (o : option AsInstanceStatus) : bool :=
  match o with
  | None => true
  | Some st => negb (String.eqb (LifecycleState st) "InService")
  end.

(** ** More views of a trace *)

(** The protection and standby requests, with their arguments (the
    decrement flag of [enter_standby] left out). *)
Inductive lop : Type :=
| LProtect (group : string) (ids : list string) (protect : bool)
| LEnter (ids : list string) (group : string)
| LExit (ids : list string) (group : string).

Fixpoint lifecycle_ops (tr : list event) : list lop :=
  match tr with
  | [] => []
  | Call (SetInstanceProtection g ids b) _ :: r => LProtect g ids b :: lifecycle_ops r
  | Call (EnterStandby ids g _) _ :: r => LEnter ids g :: lifecycle_ops r
  | Call (ExitStandby ids g) _ :: r => LExit ids g :: lifecycle_ops r
  | _ :: r => lifecycle_ops r
  end.

(** The messages of the day set, one per [set_update_message] call. *)
Fixpoint update_messages (tr : list event) : list string :=
  match tr with
  | [] => []
  | Call (SetUpdateMessage m) _ :: r => m :: update_messages r
  | _ :: r => update_messages r
  end.

(** Kinds of calls. *)
Definition poll_api {A} (a : api A) : bool :=
  match a with
  | InstanceUpdate _ | Sleep _ | ExecRemote _ _ => true
  | _ => false
  end.

(** The calls of [restart_one_instance]. *)
Definition restart_api {A} (a : api A) : bool :=
  match a with
  | InstanceUpdate _ | Sleep _ | ExecRemote _ _ | SetInstanceProtection _ _ _
  | GetAutoscalingGroup _ | EnterStandby _ _ _ | WaitForAutoscaleState _ _
  | ExitStandby _ _ => true
  | _ => false
  end.

(** The calls of the restart loop and of the instance pickers. *)
Definition loop_api {A} (a : api A) : bool :=
  match a with
  | DescribeAutoscale _ | GetActiveColor | GetTargetGroupArn _
  | TargetGroupArnFor | ElbInstances _ | PrintInstances _ _ | Input _ => true
  | _ => restart_api a
  end.

Definition is_lifecycle_call {A} (a : api A) : bool :=
  match a with
  | SetInstanceProtection _ _ _ | EnterStandby _ _ _ | ExitStandby _ _ => true
  | _ => false
  end.

Definition is_capacity_update {A} (a : api A) : bool :=
  match a with UpdateDesiredCapacity _ _ => true | _ => false end.

Definition is_motd_update {A} (a : api A) : bool :=
  match a with SetUpdateMessage _ => true | _ => false end.

Definition is_describe {A} (a : api A) : bool :=
  match a with DescribeAutoscale _ => true | _ => false end.

(** A console for the interactive picker: the target group's instances and
    the lines the user will type; [input()] with nothing typed yet blocks. *)
Record Console : Type := mkConsole {
  c_instances : list string;
  c_inputs : list string
}.

Definition console_answer (A : Type) (w : Console) (a : api A) : Console * res A :=
  match a in api T return Console * res T with
  | TargetGroupArnFor => (w, ROk "tg")
  | GetActiveColor => (w, ROk "blue")
  | GetTargetGroupArn c => (w, ROk ("tg-" ++ c))
  | ElbInstances _ => (w, ROk (c_instances w))
  | PrintInstances _ _ => (w, ROk tt)
  | Input _ =>
      match c_inputs w with
      | l :: r => (mkConsole (c_instances w) r, ROk l)
      | [] => (w, RDiverge)
      end
  | RunRemoteShell _ => (w, ROk tt)
  | _ => (w, RDiverge)
  end.

Definition legacy : Config := mkConfig (OtherEnv "staging") false.

(** A cloud where every call raises a [ClientError]. *)
Definition failing_answer (A : Type) (w : unit) (a : api A) : unit * res A :=
  (w, RExn (ClientError "DescribeLoadBalancers")).

(** Three instances; the user types [x], then [7], then [-1]. *)
Definition console_three : Console :=
  mkConsole ["i-1"; "i-2"; "i-3"] ["x"; "7"; "-1"].

(** Logs and prints are always allowed; a call when [p] allows it. *)
Definition ev_allowed (p : forall A, api A -> bool) (e : event) : bool :=
  match e with Call a _ => p _ a | _ => true end.

(** The trace grows, and each new call is one that [p] allows. *)
Definition ext_calls {W} (p : forall A, api A -> bool) (s s' : @St W) : Prop :=
  exists mid, st_trace s' = (mid ++ st_trace s)%list /\ forallb (ev_allowed p) mid = true.

(** The calls of the instance pickers. *)
Definition pick_api {A} (a : api A) : bool :=
  match a with
  | GetActiveColor | GetTargetGroupArn _ | TargetGroupArnFor | ElbInstances _
  | PrintInstances _ _ | Input _ => true
  | _ => false
  end.

(** What [instances_exec_all] may call once confirmed: the pickers, and the
    remote command given on the command line. *)
Definition exec_all_api (cmd : list string) {A} (a : api A) : bool :=
  match a with
  | ExecRemoteAll _ argv => argv_eqb argv cmd
  | _ => pick_api a
  end.

(** What [instances_start] may call. *)
Definition start_api {A} (a : api A) : bool :=
  match a with
  | DescribeCurrentRelease => true
  | ExecRemoteAll _ argv => argv_eqb argv start_cmd
  | _ => pick_api a
  end.

(** The read-only calls of [instances_status]. *)
Definition status_api {A} (a : api A) : bool :=
  match a with
  | GetTargetGroupArn _ | GetActiveColor | ElbInstances _ | PrintInstances _ _
  | IsRunningOnAdminNode | TargetGroupArnFor => true
  | _ => false
  end.

(** A cloud like [toy_answer] where the user answers no. *)
Definition declining_answer (A : Type) (w : Toy) (a : api A) : Toy * res A :=
  match a in api T return Toy * res T with
  | AreYouSure _ => (w, ROk false)
  | a' => toy_answer _ w a'
  end.

Definition prod_cfg : Config := mkConfig PROD false.

(** The calls of [instances_login]. *)
Definition login_api {A} (a : api A) : bool :=
  match a with
  | RunRemoteShell _ => true
  | _ => pick_api a
  end.

(** How a POSIX shell reads back a command line made of literal characters
    (those [shlex.quote] leaves bare), single-quoted parts and
    double-quoted parts, with words separated by single spaces: quote
    removal only.  Anything that would be expanded or split differently
    ([$], backquote and backslash inside double quotes; other characters
    outside quotes) is refused ([None]).  The head of the result is the
    word being read. *)
Inductive qmode : Type := Unquoted | InSingle | InDouble.

Definition push_word (w : string) (ws : list string) : list string :=
  match ws with
  | [] => [w]
  | x :: r => (w ++ x) :: r
  end.

Fixpoint posix_words (m : qmode) (s : string) : option (list string) :=
  match s with
  | EmptyString => match m with Unquoted => Some [""] | _ => None end
  | String c r =>
      match m with
      | Unquoted =>
          if Ascii.eqb c " "%char then option_map (cons "") (posix_words Unquoted r)
          else if Ascii.eqb c squote then posix_words InSingle r
          else if Ascii.eqb c dquote then posix_words InDouble r
          else if shlex_safe c then
            option_map (push_word (String c "")) (posix_words Unquoted r)
          else None
      | InSingle =>
          if Ascii.eqb c squote then posix_words Unquoted r
          else option_map (push_word (String c "")) (posix_words InSingle r)
      | InDouble =>
          if Ascii.eqb c dquote then posix_words Unquoted r
          else if existsb (Ascii.eqb c) ["$"; "`"; "\"]%char then None
          else option_map (push_word (String c "")) (posix_words InDouble r)
      end
  end.

(** An empty line has no words. *)
Definition posix_split (s : string) : option (list string) :=
  match s with
  | EmptyString => Some []
  | _ => posix_words Unquoted s
  end.

(** The ledger entries a trace records: each answer of
    [get_auto_scaling_group] whose desired capacity equals its min
    capacity gives the entry [modified_groups[name] = desired] that
    [restart_one_instance] writes from it; most recent first, like the
    trace. *)
Definition reservation_of (e : event) : dict :=
  match e with
  | Call a r =>
      match a in api T return res T -> dict with
      | GetAutoscalingGroup _ => fun r =>
          match r with
          | ROk ag => if Z.eqb (DesiredCapacity ag) (MinSize ag)
                      then [(GroupName ag, DesiredCapacity ag)] else []
          | _ => []
          end
      | _ => fun _ => []
      end r
  | _ => []
  end.

Fixpoint reservations (tr : list event) : dict :=
  match tr with
  | [] => []
  | e :: r => (reservation_of e ++ reservations r)%list
  end.

Definition reads_group {A} (a : api A) : bool :=
  match a with GetAutoscalingGroup _ => true | _ => false end.

(** A step that records no reservation and leaves the ledger alone. *)
Definition no_reservation {W} (s s' : @St W) : Prop :=
  exists mid, st_trace s' = (mid ++ st_trace s)%list
              /\ reservations mid = [] /\ st_groups s' = st_groups s.

(** A step after which each ledger entry is the latest reservation it
    recorded for the group, or the entry held before when it recorded
    none. *)
Definition ledger_ext {W} (s s' : @St W) : Prop :=
  exists new, st_trace s' = (new ++ st_trace s)%list
    /\ forall g, dict_get g (st_groups s')
                 = match dict_get g (reservations new) with
                   | Some d => Some d
                   | None => dict_get g (st_groups s)
                   end.

(** * Proofs *)

(** ** Running the monad *)

Section Run.
Context {W : Type}.
Variable answer : forall A : Type, W -> api A -> W * res A.
Local Abbreviation M := (@M W).

Lemma bind_ok {A B} (m : M A) (k : A -> M B) s s' b :
  bind m k s = (s', ROk b) ->
  exists s1 a, m s = (s1, ROk a) /\ k a s1 = (s', ROk b).
Proof.
  unfold bind. destruct (m s) as [s1 [a|e|]]; intro H; try discriminate.
  eauto.
Qed.

Lemma bind_step {A B} (m : M A) (k : A -> M B) s s1 a :
  m s = (s1, ROk a) -> bind m k s = k a s1.
Proof. unfold bind. intros ->. reflexivity. Qed.

(** ** Relations every step of a computation respects *)

Variable R : @St W -> @St W -> Prop.
Hypothesis R_refl : forall s, R s s.
Hypothesis R_trans : forall s1 s2 s3, R s1 s2 -> R s2 s3 -> R s1 s3.

Definition Rel {A} (m : M A) : Prop := forall s s' r, m s = (s', r) -> R s s'.

Lemma rel_ret {A} (a : A) : Rel (ret a).
Proof. intros s s' r H. injection H as <- _. apply R_refl. Qed.

Lemma rel_raise {A} e : Rel (@raise W A e).
Proof. intros s s' r H. injection H as <- _. apply R_refl. Qed.

Lemma rel_diverge {A} : Rel (@diverge W A).
Proof. intros s s' r H. injection H as <- _. apply R_refl. Qed.

Lemma rel_get_groups : Rel (@get_groups W).
Proof. intros s s' r H. injection H as <- _. apply R_refl. Qed.

Lemma rel_bind {A B} (m : M A) (k : A -> M B) :
  Rel m -> (forall a, Rel (k a)) -> Rel (bind m k).
Proof.
  intros Hm Hk s s' r. unfold bind.
  destruct (m s) as [s1 [a|e|]] eqn:E; intro H.
  - eapply R_trans; [exact (Hm _ _ _ E) | exact (Hk a _ _ _ H)].
  - injection H as <- _. exact (Hm _ _ _ E).
  - injection H as <- _. exact (Hm _ _ _ E).
Qed.

Lemma rel_try {A} (m : M A) handler :
  Rel m -> (forall e h, handler e = Some h -> Rel h) ->
  Rel (try_except m handler).
Proof.
  intros Hm Hh s s' r. unfold try_except.
  destruct (m s) as [s1 [a|e|]] eqn:E.
  - intro H. injection H as <- _. exact (Hm _ _ _ E).
  - destruct (handler e) as [h|] eqn:Eh; intro H.
    + eapply R_trans; [exact (Hm _ _ _ E) | exact (Hh _ _ Eh _ _ _ H)].
    + injection H as <- _. exact (Hm _ _ _ E).
  - intro H. injection H as <- _. exact (Hm _ _ _ E).
Qed.

Hypothesis R_call : forall A (a : api A) s, R s (fst (call answer a s)).
Hypothesis R_emit :
  forall ev s, ev <> Log Error msg_failed_restarting -> R s (fst (emit ev s)).
Hypothesis R_reserve :
  forall k v s, R s (fst (put_groups (dict_set k v (st_groups s)) s)).

Lemma rel_call {A} (a : api A) : Rel (call answer a).
Proof.
  intros s s' r H. pose proof (R_call A a s) as Hc. rewrite H in Hc. exact Hc.
Qed.

Lemma rel_emit ev : ev <> Log Error msg_failed_restarting -> Rel (emit ev).
Proof.
  intros Hev s s' r H. pose proof (R_emit ev s Hev) as He.
  rewrite H in He. exact He.
Qed.

Lemma rel_reserve k v :
  Rel (mg <- get_groups;; put_groups (dict_set k v mg)).
Proof.
  intros s s' r H. pose proof (R_reserve k v s) as He.
  unfold bind, get_groups in H. rewrite H in He. exact He.
Qed.

Ltac rel_step :=
  match goal with
  | |- Rel (bind get_groups (fun mg => put_groups (dict_set _ _ mg))) =>
      apply rel_reserve
  | |- Rel (bind _ _) => apply rel_bind; [|intro]
  | |- Rel (call _ _) => apply rel_call
  | |- Rel (ret _) => apply rel_ret
  | |- Rel (raise _) => apply rel_raise
  | |- Rel diverge => apply rel_diverge
  | |- Rel get_groups => apply rel_get_groups
  | |- Rel (log _ _) => apply rel_emit; discriminate
  | |- Rel (print _) => apply rel_emit; discriminate
  | |- Rel (if ?b then _ else _) => destruct b
  end.

Lemma rel_elb_state_loop fuel inst state :
  Rel (elb_state_loop answer fuel inst state).
Proof.
  revert inst state. induction fuel as [|f IH]; intros inst state; simpl.
  - apply rel_diverge.
  - repeat rel_step; apply IH.
Qed.

Lemma rel_wait_for_elb_state fuel inst state :
  Rel (wait_for_elb_state answer fuel inst state).
Proof. unfold wait_for_elb_state. repeat rel_step. apply rel_elb_state_loop. Qed.

Lemma rel_is_everything_awesome inst : Rel (is_everything_awesome answer inst).
Proof.
  unfold is_everything_awesome. apply rel_try.
  - repeat rel_step.
  - intros e h Hh. destruct e; try discriminate.
    injection Hh as <-. apply rel_ret.
Qed.

Lemma rel_wait_for_healthok fuel inst : Rel (wait_for_healthok answer fuel inst).
Proof.
  unfold wait_for_healthok. repeat rel_step.
  revert inst. induction fuel as [|f IH]; intro inst; simpl.
  - apply rel_diverge.
  - apply rel_bind; [apply rel_is_everything_awesome | intro ok].
    repeat rel_step. apply IH.
Qed.

Lemma rel_restart_one_instance fuel g inst :
  Rel (restart_one_instance answer fuel g inst).
Proof.
  unfold restart_one_instance, protect_and_standby, restart_in_standby.
  repeat (rel_step || apply rel_wait_for_healthok
          || apply rel_wait_for_elb_state).
Qed.

Lemma rel_restore_groups items : Rel (restore_groups answer items).
Proof.
  induction items as [|[g d] rest IH]; simpl.
  - apply rel_ret.
  - repeat rel_step. exact IH.
Qed.

End Run.

Section RunMore.
Context {W : Type}.
Variable answer : forall A : Type, W -> api A -> W * res A.
Variable R : @St W -> @St W -> Prop.
Hypothesis R_refl : forall s, R s s.
Hypothesis R_trans : forall s1 s2 s3, R s1 s2 -> R s2 s3 -> R s1 s3.
Hypothesis R_call : forall A (a : api A) s, R s (fst (call answer a s)).
Hypothesis R_emit : forall ev s, R s (fst (emit ev s)).
Hypothesis R_reserve :
  forall k v s, R s (fst (put_groups (dict_set k v (st_groups s)) s)).

Lemma rb {A B} (m : @M W A) (k : A -> @M W B) :
  Rel R m -> (forall a, Rel R (k a)) -> Rel R (bind m k).
Proof. apply rel_bind; auto. Qed.

Lemma rr {A} (a : A) : Rel R (@ret W A a).
Proof. apply rel_ret; auto. Qed.

Lemma re ev : Rel R (@emit W ev).
Proof. intros s s' r H. pose proof (R_emit ev s) as He. rewrite H in He. exact He. Qed.

Lemma rc {A} (a : api A) : Rel R (call answer a).
Proof.
  intros s s' r H. pose proof (R_call A a s) as Hc. rewrite H in Hc. exact Hc.
Qed.

Lemma rel_restart_iteration fuel inst failed :
  Rel R (restart_iteration answer fuel inst failed).
Proof.
  unfold restart_iteration.
  apply rb; [apply re | intros _].
  apply rb; [apply rc | intros [st|]].
  - destruct (negb _).
    + apply rb; [apply re | intros _]. apply rr.
    + apply rel_try; auto.
      * apply rb; [|intros _; apply rr].
        apply rel_restart_one_instance; auto.
      * intros e h Hh. destruct (is_runtime_error e); [|discriminate].
        injection Hh as <-. apply rb; [apply re | intros _]. apply rr.
  - apply rb; [apply re | intros _]. apply rr.
Qed.

Lemma rel_restart_loop fuel insts failed :
  Rel R (restart_loop answer fuel insts failed).
Proof.
  revert failed. induction insts as [|inst rest IH]; intro failed; simpl.
  - apply rr.
  - apply rb; [apply rel_restart_iteration | intro; apply IH].
Qed.

Lemma rel_pick_instances cfg : Rel R (pick_instances answer cfg).
Proof.
  unfold pick_instances, get_instances_for_environment.
  destruct (cfg_supports_blue_green cfg).
  - apply rel_try; auto.
    + apply rb; [apply rc | intro]. apply rb; [apply rc | intro]. apply rc.
    + intros e h Hh. injection Hh as <-. apply rel_raise; auto.
  - apply rb; [apply rc | intro]. apply rc.
Qed.

End RunMore.

(** ** The [modified_groups] dictionary *)

Definition keys_nodup (d : dict) : Prop := NoDup (map fst d).

Lemma dict_set_keys k v d k' :
  In k' (map fst (dict_set k v d)) <-> k' = k \/ In k' (map fst d).
Proof.
  induction d as [|[k0 v0] r IH]; simpl.
  - firstorder congruence.
  - destruct (String.eqb_spec k k0) as [->|Hne]; simpl;
      [|rewrite IH]; firstorder congruence.
Qed.

Lemma dict_set_nodup k v d : keys_nodup d -> keys_nodup (dict_set k v d).
Proof.
  unfold keys_nodup. induction d as [|[k0 v0] r IH]; simpl; intro H.
  - constructor; [intros []|constructor].
  - inversion H as [|? ? Hnin Hnd]; subst.
    destruct (String.eqb_spec k k0) as [->|Hne]; simpl.
    + constructor; assumption.
    + constructor; [|apply IH; assumption].
      rewrite dict_set_keys. intros [->|Hin]; [congruence|contradiction].
Qed.

Lemma dict_get_set_same k v d : dict_get k (dict_set k v d) = Some v.
Proof.
  induction d as [|[k0 v0] r IH]; simpl.
  - rewrite String.eqb_refl. reflexivity.
  - destruct (String.eqb_spec k k0) as [->|Hne]; simpl.
    + rewrite String.eqb_refl. reflexivity.
    + apply String.eqb_neq in Hne. rewrite Hne. exact IH.
Qed.

Lemma dict_get_set_other k v d k' :
  k' <> k -> dict_get k' (dict_set k v d) = dict_get k' d.
Proof.
  intro Hne. induction d as [|[k0 v0] r IH]; simpl.
  - apply String.eqb_neq in Hne. rewrite Hne. reflexivity.
  - destruct (String.eqb_spec k k0) as [->|Hne0]; simpl.
    + apply String.eqb_neq in Hne. rewrite Hne. reflexivity.
    + destruct (String.eqb k' k0); [reflexivity | exact IH].
Qed.

Lemma dict_get_in k d v : dict_get k d = Some v -> In (k, v) d.
Proof.
  induction d as [|[k0 v0] r IH]; simpl; [discriminate|].
  destruct (String.eqb_spec k k0) as [->|_].
  - intro H. injection H as ->. left. reflexivity.
  - intro H. right. exact (IH H).
Qed.

Lemma groups_call {W} answer A (a : api A) (s : @St W) :
  st_groups (fst (call answer a s)) = st_groups s.
Proof. unfold call. destruct (answer A (st_world s) a). reflexivity. Qed.

Lemma trace_call {W} answer A (a : api A) (s : @St W) :
  st_trace (fst (call answer a s))
  = Call a (snd (answer A (st_world s) a)) :: st_trace s.
Proof. unfold call. destruct (answer A (st_world s) a). reflexivity. Qed.

Lemma world_call {W} answer A (a : api A) (s : @St W) :
  st_world (fst (call answer a s)) = fst (answer A (st_world s) a).
Proof. unfold call. destruct (answer A (st_world s) a). reflexivity. Qed.

(** The ledger keeps distinct keys through the restart loop. *)
Lemma restart_loop_keys_nodup {W} answer fuel insts failed (s s' : @St W) r :
  restart_loop answer fuel insts failed s = (s', r) ->
  keys_nodup (st_groups s) -> keys_nodup (st_groups s').
Proof.
  intro H.
  refine (rel_restart_loop answer
            (fun s s' => keys_nodup (st_groups s) -> keys_nodup (st_groups s'))
            _ _ _ _ _ fuel insts failed s s' r H).
  - auto.
  - auto.
  - intros A a s0. rewrite groups_call. auto.
  - intros ev s0. auto.
  - intros k v s0. simpl. apply dict_set_nodup.
Qed.

Lemma pick_instances_keys_nodup {W} answer cfg (s s' : @St W) r :
  pick_instances answer cfg s = (s', r) ->
  keys_nodup (st_groups s) -> keys_nodup (st_groups s').
Proof.
  intro H.
  refine (rel_pick_instances answer
            (fun s s' => keys_nodup (st_groups s) -> keys_nodup (st_groups s'))
            _ _ _ cfg s s' r H).
  - auto.
  - auto.
  - intros A a s0. rewrite groups_call. auto.
Qed.

Lemma call_ok {W} (answer : forall A : Type, W -> api A -> W * res A) A (a : api A) (s s' : @St W) x :
  call answer a s = (s', ROk x) ->
  answer A (st_world s) a = (st_world s', ROk x)
  /\ st_trace s' = Call a (ROk x) :: st_trace s /\ st_groups s' = st_groups s.
Proof.
  unfold call. destruct (answer A (st_world s) a) as [w r] eqn:E.
  intro H. injection H as <- ->. simpl. auto.
Qed.

Lemma emit_ok {W} ev (s s' : @St W) x :
  emit ev s = (s', ROk x) ->
  st_world s' = st_world s /\ st_trace s' = ev :: st_trace s
  /\ st_groups s' = st_groups s.
Proof. unfold emit. intro H. injection H as <- _. simpl. auto. Qed.

Tactic Notation "step_ok" hyp(H) "as" ident(s1) ident(a1) ident(H1) :=
  apply bind_ok in H as [s1 [a1 [H1 H]]].

(** What the restoration loop does when each update sets the group's
    desired capacity. *)
Lemma restore_groups_spec {W} (answer : forall A : Type, W -> api A -> W * res A) (desired : W -> string -> Z)
  (Hupd : forall w g n w', answer unit w (UpdateDesiredCapacity g n) = (w', ROk tt) ->
          desired w' g = n /\ forall g', g' <> g -> desired w' g' = desired w g')
  items (s s' : @St W) :
  keys_nodup items -> restore_groups answer items s = (s', ROk tt) ->
  (forall g d, In (g, d) items -> desired (st_world s') g = d)
  /\ (forall g, ~ In g (map fst items) -> desired (st_world s') g = desired (st_world s) g)
  /\ st_groups s' = st_groups s.
Proof.
  revert s s'. induction items as [|[g d] rest IH]; intros s s' Hnd H; simpl in H.
  - injection H as <-. simpl. split; [intros ? ? []|]. auto.
  - step_ok H as s1 u1 E1. apply emit_ok in E1 as (Hw1 & _ & Hg1).
    step_ok H as s2 u2 E2. destruct u2. apply call_ok in E2 as (Ha & _ & Hg2).
    destruct (Hupd _ _ _ _ Ha) as [Hd Hframe].
    simpl in Hnd. apply NoDup_cons_iff in Hnd as [Hnin Hnd'].
    destruct (IH _ _ Hnd' H) as (Hin & Hout & Hg).
    split; [|split].
    + intros g0 d0 [Heq|Hi].
      * injection Heq as <- <-. rewrite Hout by exact Hnin. exact Hd.
      * apply Hin. exact Hi.
    + intros g0 Hn. simpl in Hn. rewrite Hout by tauto.
      rewrite Hframe by (intro; subst; tauto). congruence.
    + congruence.
Qed.

(** Lines 224-238 of [restart_one_instance], evaluated. *)
Lemma protect_and_standby_run {W} (answer : forall A : Type, W -> api A -> W * res A) gname inst (s : @St W) w1 w2 g :
  answer unit (st_world s) (SetInstanceProtection gname [inst] true) = (w1, ROk tt) ->
  answer AsGroup w1 (GetAutoscalingGroup gname) = (w2, ROk g) ->
  protect_and_standby answer gname inst s =
  (mkSt (fst (answer unit w2 (EnterStandby [inst] gname (negb (DesiredCapacity g =? MinSize g)))))
     (Call (EnterStandby [inst] gname (negb (DesiredCapacity g =? MinSize g)))
        (snd (answer unit w2 (EnterStandby [inst] gname (negb (DesiredCapacity g =? MinSize g)))))
      :: Log Info "Putting %s into standby"
      :: (if DesiredCapacity g =? MinSize g
          then [Log Info "Group '%s' needs to be adjusted to keep enough nodes"] else [])
      ++ Call (GetAutoscalingGroup gname) (ROk g)
      :: Call (SetInstanceProtection gname [inst] true) (ROk tt)
      :: Log Info "Enabling instance protection for %s" :: st_trace s)
     (if DesiredCapacity g =? MinSize g
      then dict_set (GroupName g) (DesiredCapacity g) (st_groups s) else st_groups s),
   snd (answer unit w2 (EnterStandby [inst] gname (negb (DesiredCapacity g =? MinSize g))))).
Proof.
  intros H1 H2. unfold protect_and_standby, bind, log, emit, call at 1. simpl.
  rewrite H1. unfold call at 1. simpl. rewrite H2. simpl.
  destruct (DesiredCapacity g =? MinSize g); simpl;
    unfold call; simpl; destruct (answer unit w2 _); reflexivity.
Qed.

(** The concrete cloud's [update_auto_scaling_group] sets exactly the
    named group's desired capacity, and [set_update_message] leaves the
    capacities alone. *)
Lemma toy_update_sets w g n w' :
  toy_answer unit w (UpdateDesiredCapacity g n) = (w', ROk tt) ->
  toy_desired w' g = n /\ forall g', g' <> g -> toy_desired w' g' = toy_desired w g'.
Proof.
  unfold toy_answer. cbn beta iota.
  destruct (String.eqb_spec g "asg-1") as [->|Hne]; intro H.
  - injection H as <-. unfold toy_desired. simpl.
    split; [reflexivity|]. intros g' Hg'.
    apply String.eqb_neq in Hg'. rewrite Hg'. reflexivity.
  - apply String.eqb_neq in Hne as Hne'.
    injection H as <-. unfold toy_desired. rewrite Hne'. simpl.
    rewrite dict_get_set_same. split; [reflexivity|].
    intros g' Hg'. destruct (String.eqb g' "asg-1"); [reflexivity|].
    rewrite dict_get_set_other by exact Hg'. reflexivity.
Qed.

Lemma toy_message_frame w m w' r :
  toy_answer unit w (SetUpdateMessage m) = (w', r) ->
  forall g, toy_desired w' g = toy_desired w g.
Proof. simpl. intro H. injection H as <- _. reflexivity. Qed.

(** ** C1: the capacity guard of [restart_one_instance] *)

(** Claim C1 (as the code has it).  In [restart_one_instance], once the
    instance is protected and the group [g] has been read, the
    [enter_standby] call is made with
    [ShouldDecrementDesiredCapacity = not (DesiredCapacity = MinSize)]: when
    desired equals min the instance enters standby WITHOUT decrementing and
    the group's desired capacity is recorded in [modified_groups]; otherwise
    standby decrements and [modified_groups] is left unchanged.  No other
    standby call precedes it, and the rest of the restart runs from there. *)
Theorem restart_one_instance_standby_decrement
    {W} (answer : forall A : Type, W -> api A -> W * res A)
    fuel gname inst (s : @St W) w1 w2 w3 g r3 :
  answer unit (st_world s) (SetInstanceProtection gname [inst] true) = (w1, ROk tt) ->
  answer AsGroup w1 (GetAutoscalingGroup gname) = (w2, ROk g) ->
  answer unit w2 (EnterStandby [inst] gname
                    (negb (DesiredCapacity g =? MinSize g))) = (w3, r3) ->
  exists new,
    standby_flags new = [] /\
    restart_one_instance answer fuel gname inst s =
    bind (fun _ =>
            (mkSt w3
               (Call (EnterStandby [inst] gname
                        (negb (DesiredCapacity g =? MinSize g))) r3
                :: new ++ st_trace s)
               (if DesiredCapacity g =? MinSize g
                then dict_set (GroupName g) (DesiredCapacity g) (st_groups s)
                else st_groups s),
             r3))
         (fun _ => restart_in_standby answer fuel gname inst) s.
Proof.
  intros H1 H2 H3.
  pose proof (protect_and_standby_run answer gname inst s w1 w2 g H1 H2) as Hrun.
  rewrite H3 in Hrun. simpl in Hrun.
  destruct (DesiredCapacity g =? MinSize g); simpl in Hrun.
  - exists [Log Info "Putting %s into standby";
            Log Info "Group '%s' needs to be adjusted to keep enough nodes";
            Call (GetAutoscalingGroup gname) (ROk g);
            Call (SetInstanceProtection gname [inst] true) (ROk tt);
            Log Info "Enabling instance protection for %s"].
    split; [reflexivity|].
    unfold restart_one_instance, bind at 1. rewrite Hrun. reflexivity.
  - exists [Log Info "Putting %s into standby";
            Call (GetAutoscalingGroup gname) (ROk g);
            Call (SetInstanceProtection gname [inst] true) (ROk tt);
            Log Info "Enabling instance protection for %s"].
    split; [reflexivity|].
    unfold restart_one_instance, bind at 1. rewrite Hrun. reflexivity.
Qed.

Lemma restart_one_instance_standby_decrement_witness :
  exists new,
    standby_flags new = [] /\
    restart_one_instance toy_answer 3 "asg-1" "i-1" (start toy_fleet) =
    bind (fun _ =>
            (mkSt toy_fleet
               (Call (EnterStandby ["i-1"] "asg-1" false) (ROk tt)
                :: new ++ [])
               [("asg-1", 2)],
             ROk tt))
         (fun _ => restart_in_standby toy_answer 3 "asg-1" "i-1") (start toy_fleet).
Proof.
  exact (restart_one_instance_standby_decrement toy_answer 3 "asg-1" "i-1"
           (start toy_fleet) toy_fleet toy_fleet toy_fleet
           (mkAsGroup "asg-1" 2 2) (ROk tt) eq_refl eq_refl eq_refl).
Defined.

(** Claim C1 fails: with desired = min = 2 (the design notes' scenario),
    [enter_standby] is called with [ShouldDecrementDesiredCapacity = false],
    not [true]; the original desired capacity 2 is recorded. *)
Lemma restart_one_instance_min_capacity_no_decrement :
  t_desired toy_fleet = t_min toy_fleet /\
  standby_flags (st_trace (fst (restart_one_instance toy_answer 3 "asg-1" "i-1"
                                  (start toy_fleet)))) = [false] /\
  st_groups (fst (restart_one_instance toy_answer 3 "asg-1" "i-1"
                    (start toy_fleet))) = [("asg-1", 2)].
Proof. vm_compute. repeat split. Qed.

(** ** C3: the exit status *)

Lemma failure_logs_app l1 l2 :
  failure_logs (l1 ++ l2)%list = (failure_logs l1 + failure_logs l2)%nat.
Proof.
  induction l1 as [|ev r IH]; simpl; [reflexivity|].
  destruct ev as [A a rr|[] m|p]; try exact IH.
  destruct (String.eqb m msg_failed_restarting); simpl; rewrite IH; reflexivity.
Qed.

(** The trace grows by events none of which is the loop's failure line. *)
Definition no_failure_ext {W} (s s' : @St W) : Prop :=
  exists new, st_trace s' = (new ++ st_trace s)%list /\ failure_logs new = O.

Lemma nfe_refl {W} (s : @St W) : no_failure_ext s s.
Proof. exists []. auto. Qed.

Lemma nfe_trans {W} (s1 s2 s3 : @St W) :
  no_failure_ext s1 s2 -> no_failure_ext s2 s3 -> no_failure_ext s1 s3.
Proof.
  intros [n1 [H1 F1]] [n2 [H2 F2]]. exists (n2 ++ n1)%list.
  rewrite H2, H1, app_assoc, failure_logs_app, F1, F2. auto.
Qed.

Lemma nfe_call {W} (answer : forall A : Type, W -> api A -> W * res A) A (a : api A) s :
  no_failure_ext s (fst (call answer a s)).
Proof.
  exists [Call a (snd (answer A (st_world s) a))].
  rewrite trace_call. auto.
Qed.

Lemma nfe_emit {W} ev (s : @St W) :
  ev <> Log Error msg_failed_restarting -> no_failure_ext s (fst (emit ev s)).
Proof.
  intro Hev. exists [ev]. split; [reflexivity|].
  destruct ev as [A a r|[] m|p]; try reflexivity. simpl.
  destruct (String.eqb_spec m msg_failed_restarting) as [->|]; [congruence|].
  reflexivity.
Qed.

Lemma nfe_reserve {W} k v (s : @St W) :
  no_failure_ext s (fst (put_groups (dict_set k v (st_groups s)) s)).
Proof. exists []. auto. Qed.

Ltac nfe_rel :=
  first [ apply nfe_refl | eapply nfe_trans; eassumption
        | apply nfe_call | apply nfe_emit; assumption | apply nfe_reserve ].

(** One turn of the loop: [failed] becomes true exactly when the turn
    wrote the failure line. *)
Lemma restart_iteration_failed {W} (answer : forall A : Type, W -> api A -> W * res A)
    fuel inst f (s s' : @St W) f' :
  restart_iteration answer fuel inst f s = (s', ROk f') ->
  exists new, st_trace s' = (new ++ st_trace s)%list /\
              f' = orb f (negb (Nat.eqb (failure_logs new) 0)).
Proof.
  intro H. unfold restart_iteration in H.
  step_ok H as s1 u1 E1. apply emit_ok in E1 as (_ & T1 & _).
  step_ok H as s2 o E2. apply call_ok in E2 as (_ & T2 & _).
  assert (Hskip : forall lvl m, bind (log lvl m) (fun _ => ret f) s2 = (s', ROk f') ->
                  lvl <> Error ->
                  exists new, st_trace s' = (new ++ st_trace s)%list /\
                              f' = orb f (negb (Nat.eqb (failure_logs new) 0))).
  { intros lvl m Hb Hl. step_ok Hb as s3 u3 E3. apply emit_ok in E3 as (_ & T3 & _).
    injection Hb as <- <-.
    exists [Log lvl m; Call (DescribeAutoscale inst) (ROk o);
            Log Info "Restarting %s (%d of %d)..."].
    rewrite T3, T2, T1. split; [reflexivity|].
    destruct lvl; try congruence; simpl; rewrite orb_false_r; reflexivity. }
  destruct o as [st|]; [|eapply Hskip; [exact H | discriminate]].
  destruct (negb (String.eqb (LifecycleState st) "InService"));
    [eapply Hskip; [exact H | discriminate]|].
  assert (Hr : Rel no_failure_ext
                 (bind (restart_one_instance answer fuel (AutoScalingGroupName st) inst)
                       (fun _ => ret f))).
  { apply (rel_bind no_failure_ext nfe_trans);
      [|intros _; apply (rel_ret no_failure_ext nfe_refl)].
    exact (rel_restart_one_instance answer no_failure_ext nfe_refl nfe_trans
             (nfe_call answer) nfe_emit nfe_reserve fuel _ inst). }
  unfold try_except in H.
  destruct (bind (restart_one_instance answer fuel (AutoScalingGroupName st) inst)
                 (fun _ => ret f) s2) as [s3 r3] eqn:E3.
  destruct (Hr _ _ _ E3) as [n0 [T0 F0]].
  destruct r3 as [a|e|].
  - injection H as <- <-.
    step_ok E3 as s4 u4 E4. injection E3 as <- ->.
    exists (n0 ++ [Call (DescribeAutoscale inst) (ROk (Some st));
                   Log Info "Restarting %s (%d of %d)..."])%list.
    rewrite T0, T2, T1, <- app_assoc. split; [reflexivity|].
    rewrite failure_logs_app, F0. simpl. rewrite orb_false_r. reflexivity.
  - destruct (is_runtime_error e); [|discriminate].
    step_ok H as s5 u5 E5. apply emit_ok in E5 as (_ & T5 & _).
    injection H as <- <-.
    exists (Log Error msg_failed_restarting ::
            n0 ++ [Call (DescribeAutoscale inst) (ROk (Some st));
                   Log Info "Restarting %s (%d of %d)..."])%list.
    rewrite T5, T0, T2, T1. simpl. rewrite <- app_assoc. split; [reflexivity|].
    simpl. destruct f; reflexivity.
  - discriminate.
Qed.

Lemma restart_loop_failed {W} (answer : forall A : Type, W -> api A -> W * res A)
    fuel insts f (s s' : @St W) f' :
  restart_loop answer fuel insts f s = (s', ROk f') ->
  exists new, st_trace s' = (new ++ st_trace s)%list /\
              f' = orb f (negb (Nat.eqb (failure_logs new) 0)).
Proof.
  revert f s. induction insts as [|inst rest IH]; intros f s H; simpl in H.
  - injection H as <- <-. exists []. rewrite orb_false_r. auto.
  - step_ok H as s1 f1 E1.
    destruct (restart_iteration_failed answer fuel inst f s s1 f1 E1) as [n1 [T1 F1]].
    destruct (IH f1 s1 H) as [n2 [T2 F2]].
    exists (n2 ++ n1)%list. rewrite T2, T1, app_assoc. split; [reflexivity|].
    rewrite F2, F1, failure_logs_app, <- orb_assoc. f_equal.
    destruct (failure_logs n1), (failure_logs n2); simpl; auto.
Qed.

(** A skipped instance: the turn reads its status, writes a warning and
    leaves the flag, the world and the ledger as they were. *)
Lemma restart_iteration_skip {W} (answer : forall A : Type, W -> api A -> W * res A)
    fuel inst f (s : @St W) w' o :
  answer _ (st_world s) (DescribeAutoscale inst) = (w', ROk o) ->
  is_skipped o = true ->
  exists m,
    restart_iteration answer fuel inst f s =
    (mkSt w' (Log Warning m :: Call (DescribeAutoscale inst) (ROk o)
              :: Log Info "Restarting %s (%d of %d)..." :: st_trace s)
          (st_groups s),
     ROk f).
Proof.
  intros Hd Hs. unfold restart_iteration, bind, log, emit at 1. simpl.
  unfold call. simpl. rewrite Hd.
  destruct o as [st|]; simpl in Hs |- *.
  - rewrite Hs. eexists. reflexivity.
  - eexists. reflexivity.
Qed.

(** Claim C3.  When [instances_restart] reaches [sys.exit(c)], [c] is 0 if
    the run wrote no "Failed restarting" line and 1 if it wrote one (one
    such line per instance whose restart raised a caught error: the
    [failed] flag); and a skipped instance (not in the ASG, or not
    [InService]) leaves the flag unchanged and writes no such line. *)
Theorem instances_restart_exit_code
    {W} (answer : forall A : Type, W -> api A -> W * res A) :
  (forall fuel cfg motd (s s' : @St W) c,
      instances_restart answer fuel cfg motd s = (s', ROk (Some c)) ->
      exists new, st_trace s' = (new ++ st_trace s)%list /\
        ((c = 0 /\ failure_logs new = O) \/ (c = 1 /\ failure_logs new <> O)))
  /\
  (forall fuel inst f (s s' : @St W) w' o r,
      answer _ (st_world s) (DescribeAutoscale inst) = (w', ROk o) ->
      is_skipped o = true ->
      restart_iteration answer fuel inst f s = (s', r) ->
      r = ROk f /\
      exists new, st_trace s' = (new ++ st_trace s)%list /\ failure_logs new = O).
Proof.
  split.
  - intros fuel cfg motd s s' c H. unfold instances_restart in H.
    step_ok H as s1 rel E1. step_ok H as s2 sure E2.
    destruct (negb sure); [discriminate|].
    step_ok H as s3 u3 E3. step_ok H as s4 u4 E4.
    step_ok H as s5 insts E5. step_ok H as s6 failed E6.
    step_ok H as s7 mg E7. step_ok H as s8 u8 E8.
    step_ok H as s9 u9 E9. step_ok H as s10 u10 E10.
    injection H as <- <-. injection E4 as <- _. injection E7 as <- <-.
    pose proof (rel_call answer _ (nfe_call answer) _ _ _ _ E1) as N1.
    pose proof (rel_call answer _ (nfe_call answer) _ _ _ _ E2) as N2.
    pose proof (rel_call answer _ (nfe_call answer) _ _ _ _ E3) as N3.
    pose proof (rel_pick_instances answer _ nfe_refl nfe_trans (nfe_call answer)
                  cfg _ _ _ E5) as N5.
    pose proof (rel_restore_groups answer _ nfe_refl nfe_trans (nfe_call answer)
                  nfe_emit _ _ _ _ E8) as N8.
    pose proof (rel_call answer _ (nfe_call answer) _ _ _ _ E9) as N9.
    assert (N10 : no_failure_ext s9 s10).
    { refine (rel_emit _ nfe_emit (Print "Instances restarted in %s seconds")
                _ _ _ _ E10). discriminate. }
    assert (Na : no_failure_ext s s5).
    { apply (nfe_trans _ s3); [apply (nfe_trans _ s2); [apply (nfe_trans _ s1)|]; assumption|].
      eapply nfe_trans; [|exact N5]. exists []. auto. }
    assert (Nb : no_failure_ext s6 s10).
    { apply (nfe_trans _ s8); [assumption|]. apply (nfe_trans _ s9); assumption. }
    destruct Na as [na [Ta Fa]]. destruct Nb as [nb [Tb Fb]].
    destruct (restart_loop_failed answer fuel insts false s5 s6 failed E6)
      as [nl [Tl Fl]].
    exists (nb ++ nl ++ na)%list.
    rewrite Tb, Tl, Ta, !app_assoc. split; [reflexivity|].
    rewrite !failure_logs_app, Fa, Fb. simpl in Fl. subst failed.
    destruct (failure_logs nl); simpl; [left | right]; split; auto.
  - intros fuel inst f s s' w' o r Hd Hs H.
    destruct (restart_iteration_skip answer fuel inst f s w' o Hd Hs) as [m Hm].
    rewrite Hm in H. injection H as <- <-. split; [reflexivity|].
    exists [Log Warning m; Call (DescribeAutoscale inst) (ROk o);
            Log Info "Restarting %s (%d of %d)..."].
    split; reflexivity.
Qed.

Lemma instances_restart_exit_code_witness :
  (exists new,
      st_trace (fst (instances_restart toy_answer 5 blue_green "m"
                       (start toy_stopped))) = (new ++ [])%list
      /\ failure_logs new <> O)
  /\ snd (restart_iteration toy_answer 5 "i-2" true (start toy_skip)) = ROk true.
Proof.
  split.
  - destruct (proj1 (instances_restart_exit_code toy_answer) 5%nat blue_green "m"
                (start toy_stopped)
                (fst (instances_restart toy_answer 5 blue_green "m" (start toy_stopped)))
                1) as [new [T [[C _]|[_ F]]]].
    + vm_compute. reflexivity.
    + discriminate.
    + exists new. split; assumption.
  - destruct (proj2 (instances_restart_exit_code toy_answer) 5%nat "i-2" true
                (start toy_skip)
                (fst (restart_iteration toy_answer 5 "i-2" true (start toy_skip)))
                toy_skip (Some (mkAsInstanceStatus "asg-1" "Standby"))
                (snd (restart_iteration toy_answer 5 "i-2" true (start toy_skip))))
      as [Hr _].
    + reflexivity.
    + reflexivity.
    + apply surjective_pairing.
    + exact Hr.
Defined.

(** ** C4: failure isolation in the restart loop *)

(** Claim C4 (as the code has it).  Let instance [A] be [InService] and let
    its [restart_one_instance] raise [e].  If [e] is a [RuntimeError], the
    loop logs the failure, sets [failed] and goes on with the next
    instances from the state the failure left; otherwise [e] is not caught
    and ends the loop, so no later instance is attempted. *)
Theorem restart_loop_isolates_runtime_errors
    {W} (answer : forall A : Type, W -> api A -> W * res A)
    fuel inst rest failed (s s1 : @St W) w' st e :
  answer _ (st_world s) (DescribeAutoscale inst) = (w', ROk (Some st)) ->
  LifecycleState st = "InService" ->
  restart_one_instance answer fuel (AutoScalingGroupName st) inst
    (mkSt w' (Call (DescribeAutoscale inst) (ROk (Some st))
              :: Log Info "Restarting %s (%d of %d)..." :: st_trace s)
          (st_groups s))
  = (s1, RExn e) ->
  (is_runtime_error e = true ->
   restart_loop answer fuel (inst :: rest) failed s =
   restart_loop answer fuel rest true
     (mkSt (st_world s1) (Log Error msg_failed_restarting :: st_trace s1)
           (st_groups s1)))
  /\
  (is_runtime_error e = false ->
   restart_loop answer fuel (inst :: rest) failed s = (s1, RExn e)).
Proof.
  intros Hd Hl Hr.
  assert (Hit : restart_iteration answer fuel inst failed s =
                if is_runtime_error e
                then (mkSt (st_world s1)
                        (Log Error msg_failed_restarting :: st_trace s1)
                        (st_groups s1), ROk true)
                else (s1, RExn e)).
  { unfold restart_iteration. unfold bind at 1, log at 1, emit at 1.
    cbn beta iota. unfold bind at 1, call at 1. cbn beta iota zeta.
    cbn [st_world st_trace st_groups]. rewrite Hd. cbn beta iota zeta.
    rewrite Hl, String.eqb_refl. cbn [negb].
    unfold try_except, bind at 1. cbn beta iota zeta. rewrite Hr.
    destruct (is_runtime_error e); reflexivity. }
  split; intro He; simpl; unfold bind at 1; rewrite Hit, He; reflexivity.
Qed.

Lemma restart_loop_isolates_runtime_errors_witness :
  restart_loop toy_answer 5 ["i-1"; "i-2"] false (start toy_stopped) =
  restart_loop toy_answer 5 ["i-2"] true
    (let s1 := fst (restart_one_instance toy_answer 5 "asg-1" "i-1"
                      (mkSt toy_stopped
                         [Call (DescribeAutoscale "i-1")
                            (ROk (Some (mkAsInstanceStatus "asg-1" "InService")));
                          Log Info "Restarting %s (%d of %d)..."] [])) in
     mkSt (st_world s1) (Log Error msg_failed_restarting :: st_trace s1)
       (st_groups s1)).
Proof.
  refine (proj1 (restart_loop_isolates_runtime_errors toy_answer 5 "i-1" ["i-2"]
                   false (start toy_stopped)
                   (fst (restart_one_instance toy_answer 5 "asg-1" "i-1"
                           (mkSt toy_stopped
                              [Call (DescribeAutoscale "i-1")
                                 (ROk (Some (mkAsInstanceStatus "asg-1" "InService")));
                               Log Info "Restarting %s (%d of %d)..."] [])))
                   toy_stopped (mkAsInstanceStatus "asg-1" "InService")
                   (RuntimeError "Instance no longer running (state stopped)")
                   eq_refl eq_refl _) eq_refl).
  vm_compute. reflexivity.
Defined.

(** Claim C4 fails: when the remote restart command of [i-1] raises
    [CalledProcessError] (the error [lib.ssh.exec_remote] raises for a
    failed remote command), the loop does not catch it: it ends with that
    exception and [i-2] is never attempted. *)
Lemma restart_loop_called_process_error_escapes :
  let (s, r) := restart_loop toy_answer 5 ["i-1"; "i-2"] false
                  (start toy_restart_fails) in
  r = RExn (CalledProcessError restart_cmd) /\ described (st_trace s) = ["i-1"].
Proof. vm_compute. split; reflexivity. Qed.

(** ** C5: a reservation overwrites an earlier one *)

(** Claim C5 (as the code has it).  When [restart_one_instance] finds the
    group at desired = min, [modified_groups[name] = desired] assigns the
    desired capacity observed now, whatever the ledger held for that group
    before; the other groups' entries are unchanged. *)
Theorem reservation_records_latest_observation
    {W} (answer : forall A : Type, W -> api A -> W * res A)
    gname inst (s s' : @St W) w1 w2 g r :
  answer unit (st_world s) (SetInstanceProtection gname [inst] true) = (w1, ROk tt) ->
  answer AsGroup w1 (GetAutoscalingGroup gname) = (w2, ROk g) ->
  DesiredCapacity g = MinSize g ->
  protect_and_standby answer gname inst s = (s', r) ->
  dict_get (GroupName g) (st_groups s') = Some (DesiredCapacity g)
  /\ forall k, k <> GroupName g ->
               dict_get k (st_groups s') = dict_get k (st_groups s).
Proof.
  intros H1 H2 Heq H.
  rewrite (protect_and_standby_run answer gname inst s w1 w2 g H1 H2) in H.
  injection H as <- _. simpl.
  rewrite Heq, Z.eqb_refl.
  split; [apply dict_get_set_same | intros k Hk; apply dict_get_set_other, Hk].
Qed.

Lemma reservation_records_latest_observation_witness :
  dict_get "asg-1"
    (st_groups (fst (protect_and_standby toy_answer "asg-1" "i-1"
                       (mkSt toy_fleet [] [("asg-1", 7)])))) = Some 2.
Proof.
  exact (proj1 (reservation_records_latest_observation toy_answer "asg-1" "i-1"
                  (mkSt toy_fleet [] [("asg-1", 7)])
                  (fst (protect_and_standby toy_answer "asg-1" "i-1"
                          (mkSt toy_fleet [] [("asg-1", 7)])))
                  toy_fleet toy_fleet (mkAsGroup "asg-1" 2 2)
                  (snd (protect_and_standby toy_answer "asg-1" "i-1"
                          (mkSt toy_fleet [] [("asg-1", 7)])))
                  eq_refl eq_refl eq_refl (surjective_pairing _))).
Defined.

(** Claim C5 fails: in [toy_rescaled] the first reservation of [asg-1]
    records 2; an external change brings the group to desired = min = 3
    before [i-2] is processed, and the second reservation replaces 2 by 3. *)
Lemma reservation_second_observation_overwrites :
  st_groups (fst (restart_loop toy_answer 5 ["i-1"] false (start toy_rescaled)))
    = [("asg-1", 2)] /\
  st_groups (fst (restart_loop toy_answer 5 ["i-1"; "i-2"] false
                    (start toy_rescaled))) = [("asg-1", 3)].
Proof. vm_compute. split; reflexivity. Qed.

(** ** C6: the health loop does not look at the compute state *)

(** On [toy_unreachable] every turn of the health loop probes, prints a dot
    and sleeps; nothing in it reads the instance's compute state. *)
Lemma healthok_loop_unreachable fuel (s : @St Toy) :
  st_world s = toy_unreachable ->
  snd (healthok_loop toy_answer fuel "i-1" s) = RDiverge /\
  instance_updates (st_trace (fst (healthok_loop toy_answer fuel "i-1" s)))
    = instance_updates (st_trace s).
Proof.
  revert s. induction fuel as [|f IH]; intros [w tr mg] Hw; simpl in Hw; subst w.
  - split; reflexivity.
  - cbn.
    destruct (IH (mkSt toy_unreachable
                   (Call (Sleep 10) (ROk tt) :: Print "."
                    :: Call (ExecRemote "i-1" healthcheck_cmd)
                         (RExn (CalledProcessError healthcheck_cmd)) :: tr) mg)
                eq_refl) as [H1 H2].
    destruct (healthok_loop toy_answer f "i-1" _) as [s1 r1] eqn:E.
    simpl in H1, H2 |- *. split; assumption.
Qed.

(** Claim C6 (as the code has it).  An instance whose compute state is
    [stopped] and whose healthcheck fails keeps [wait_for_healthok] polling
    for as long as it runs (every fuel ends in [RDiverge]) without a single
    [instance.update()]: the loop never re-validates the compute state.
    [wait_for_elb_state] at the same instance raises [RuntimeError] at once. *)
Theorem wait_for_healthok_ignores_compute_state fuel tr mg :
  snd (wait_for_healthok toy_answer fuel "i-1" (mkSt toy_unreachable tr mg))
    = RDiverge /\
  instance_updates (st_trace (fst (wait_for_healthok toy_answer fuel "i-1"
                                     (mkSt toy_unreachable tr mg))))
    = instance_updates tr /\
  snd (wait_for_elb_state toy_answer (S fuel) "i-1" "healthy"
         (mkSt toy_unreachable tr mg))
    = RExn (RuntimeError "Instance no longer running (state stopped)").
Proof.
  split; [|split]; [| |reflexivity];
    unfold wait_for_healthok; cbn; unfold bind at 1;
    destruct (healthok_loop_unreachable fuel
                (mkSt toy_unreachable
                   (Print "Waiting" :: Log Info "Waiting for instance to be Online %s" :: tr)
                   mg) eq_refl) as [H1 H2];
    destruct (healthok_loop toy_answer fuel "i-1" _) as [s1 r1];
    simpl in H1, H2; subst r1; [reflexivity | exact H2].
Qed.

(** ** C7: skipped instances *)

(** Claim C7.  A turn of the restart loop whose [describe_autoscale] gives
    nothing, or a lifecycle state other than [InService], leaves the
    [failed] flag and the ledger as they were and issues no mutating call:
    no protection change, capacity change, standby request or remote
    command. *)
Theorem restart_iteration_skip_no_mutation
    {W} (answer : forall A : Type, W -> api A -> W * res A)
    fuel inst f (s s' : @St W) w' o r :
  answer _ (st_world s) (DescribeAutoscale inst) = (w', ROk o) ->
  is_skipped o = true ->
  restart_iteration answer fuel inst f s = (s', r) ->
  r = ROk f /\ st_groups s' = st_groups s /\
  exists new, st_trace s' = (new ++ st_trace s)%list /\
              forallb (fun e => negb (is_mutating e)) new = true.
Proof.
  intros Hd Hs Hr.
  destruct (restart_iteration_skip answer fuel inst f s w' o Hd Hs) as [m E].
  rewrite E in Hr. injection Hr as <- <-.
  split; [reflexivity|split; [reflexivity|]].
  exists [Log Warning m; Call (DescribeAutoscale inst) (ROk o);
          Log Info "Restarting %s (%d of %d)..."].
  split; reflexivity.
Qed.

Lemma restart_iteration_skip_no_mutation_witness :
  snd (restart_iteration toy_answer 5 "i-1" false (start toy_skip)) = ROk false /\
  snd (restart_iteration toy_answer 5 "i-2" false (start toy_skip)) = ROk false.
Proof.
  split.
  - exact (proj1 (restart_iteration_skip_no_mutation toy_answer 5 "i-1" false
                    (start toy_skip)
                    (fst (restart_iteration toy_answer 5 "i-1" false (start toy_skip)))
                    toy_skip None
                    (snd (restart_iteration toy_answer 5 "i-1" false (start toy_skip)))
                    eq_refl eq_refl (surjective_pairing _))).
  - exact (proj1 (restart_iteration_skip_no_mutation toy_answer 5 "i-2" false
                    (start toy_skip)
                    (fst (restart_iteration toy_answer 5 "i-2" false (start toy_skip)))
                    toy_skip (Some (mkAsInstanceStatus "asg-1" "Standby"))
                    (snd (restart_iteration toy_answer 5 "i-2" false (start toy_skip)))
                    eq_refl eq_refl (surjective_pairing _))).
Defined.

(** ** C8: the health probe *)

(** Claim C8 (as the code has it).  The probe compares the response with
    its surrounding whitespace stripped ([response.strip()]) to
    "Everything is awesome"; a [CalledProcessError] from the remote command
    gives [False]; any other exception is not caught. *)
Theorem is_everything_awesome_spec
    {W} (answer : forall A : Type, W -> api A -> W * res A)
    inst (s : @St W) w' r :
  answer _ (st_world s) (ExecRemote inst healthcheck_cmd) = (w', r) ->
  is_everything_awesome answer inst s =
  (mkSt w' (Call (ExecRemote inst healthcheck_cmd) r :: st_trace s) (st_groups s),
   match r with
   | ROk resp => ROk (String.eqb (py_strip resp) "Everything is awesome")
   | RExn (CalledProcessError _) => ROk false
   | RExn e => RExn e
   | RDiverge => RDiverge
   end).
Proof.
  intros Hx. unfold is_everything_awesome, try_except, bind, call.
  rewrite Hx. destruct r as [resp|[m|c|op]|]; reflexivity.
Qed.

Lemma is_everything_awesome_spec_witness :
  snd (is_everything_awesome toy_answer "i-1" (start toy_unreachable)) = ROk false.
Proof.
  rewrite (is_everything_awesome_spec toy_answer "i-1" (start toy_unreachable)
             toy_unreachable (RExn (CalledProcessError healthcheck_cmd)) eq_refl).
  reflexivity.
Defined.

(** Claim C8 fails: the body ["Everything is awesome\n"] is not the exact
    expected string, yet the probe reports healthy; and an exception other
    than [CalledProcessError] raised by the remote call is not turned into
    unhealthy but escapes the probe. *)
Lemma is_everything_awesome_strips_and_reraises :
  ("Everything is awesome" ++ String "010" "")%string <> "Everything is awesome" /\
  snd (is_everything_awesome toy_answer "i-1" (start toy_fleet)) = ROk true /\
  snd (is_everything_awesome
         (fun A (w : unit) (a : api A) => (w, RExn (RuntimeError "ssh: connection refused")))
         "i-1" (mkSt tt [] [])) = RExn (RuntimeError "ssh: connection refused").
Proof.
  split; [discriminate|]. split; vm_compute; reflexivity.
Qed.

(** ** C9: running the restoration twice *)

(** Claim C9 (as the code has it).  The restoration loop reads
    [modified_groups] and never empties it: after a first restoration the
    ledger holds the same entries.  Read again, it replays the same
    [update_auto_scaling_group] calls; with nothing changing capacities in
    between, these leave every group's desired capacity as the first
    restoration left it. *)
Theorem restore_groups_twice
    {W} (answer : forall A : Type, W -> api A -> W * res A)
    (desired : W -> string -> Z)
    (Hupd : forall w g n w',
        answer unit w (UpdateDesiredCapacity g n) = (w', ROk tt) ->
        desired w' g = n /\ forall g', g' <> g -> desired w' g' = desired w g')
    (s s1 s2 : @St W) :
  keys_nodup (st_groups s) ->
  restore_groups answer (st_groups s) s = (s1, ROk tt) ->
  restore_groups answer (st_groups s1) s1 = (s2, ROk tt) ->
  st_groups s1 = st_groups s /\ st_groups s2 = st_groups s /\
  forall g, desired (st_world s2) g = desired (st_world s1) g.
Proof.
  intros Hnd H1 H2.
  destruct (restore_groups_spec answer desired Hupd _ _ _ Hnd H1)
    as (Hin1 & Hout1 & Hg1).
  rewrite Hg1 in H2.
  destruct (restore_groups_spec answer desired Hupd _ _ _ Hnd H2)
    as (Hin2 & Hout2 & Hg2).
  split; [exact Hg1|split; [congruence|]].
  intro g. destruct (in_dec String.string_dec g (map fst (st_groups s))) as [Hi|Hn].
  - apply in_map_iff in Hi as [[g' d] [Heq Hi]]. simpl in Heq. subst g'.
    rewrite (Hin2 g d Hi), (Hin1 g d Hi). reflexivity.
  - apply Hout2, Hn.
Qed.

Lemma restore_groups_twice_witness :
  st_groups (fst (restore_groups toy_answer [("asg-1", 2)]
                    (mkSt toy_fleet [] [("asg-1", 2)]))) = [("asg-1", 2)].
Proof.
  exact (proj1 (restore_groups_twice toy_answer toy_desired toy_update_sets
           (mkSt toy_fleet [] [("asg-1", 2)])
           (fst (restore_groups toy_answer [("asg-1", 2)]
                   (mkSt toy_fleet [] [("asg-1", 2)])))
           (fst (restore_groups toy_answer [("asg-1", 2)]
                   (fst (restore_groups toy_answer [("asg-1", 2)]
                           (mkSt toy_fleet [] [("asg-1", 2)])))))
           (NoDup_cons "asg-1" (fun H : In "asg-1" [] => H) (NoDup_nil _))
           (surjective_pairing _) (surjective_pairing _))).
Defined.

(** Claim C9 fails: after the restoration the ledger still holds
    [asg-1 -> 2], and a second restoration is not a no-op: it issues
    [update_auto_scaling_group] for [asg-1] again. *)
Lemma restore_groups_second_run_repeats_updates :
  let s1 := fst (restore_groups toy_answer [("asg-1", 2)]
                   (mkSt toy_fleet [] [("asg-1", 2)])) in
  st_groups s1 = [("asg-1", 2)] /\
  capacity_updates (st_trace (fst (restore_groups toy_answer (st_groups s1) s1)))
    = [("asg-1", 2); ("asg-1", 2)].
Proof. vm_compute. split; reflexivity. Qed.

(** ** C10: [instances stop] *)

Definition trace_ext {W} (s s' : @St W) : Prop :=
  exists new, st_trace s' = (new ++ st_trace s)%list.

Lemma trace_ext_refl {W} (s : @St W) : trace_ext s s.
Proof. exists []. reflexivity. Qed.

Lemma trace_ext_trans {W} (s1 s2 s3 : @St W) :
  trace_ext s1 s2 -> trace_ext s2 s3 -> trace_ext s1 s3.
Proof.
  intros [n1 H1] [n2 H2]. exists (n2 ++ n1)%list. rewrite H2, H1, app_assoc. reflexivity.
Qed.

Lemma trace_ext_call {W} (answer : forall A : Type, W -> api A -> W * res A) A (a : api A) s :
  trace_ext s (fst (call answer a s)).
Proof. exists [Call a (snd (answer A (st_world s) a))]. apply trace_call. Qed.

(** Claim C10.  In [PROD], [instances_stop] prints its two lines and makes
    no call at all (no confirmation, no remote command).  Elsewhere, its
    first call asks for confirmation, and unless the answer is [True]
    nothing follows it. *)
Theorem instances_stop_prod_guard
    {W} (answer : forall A : Type, W -> api A -> W * res A) cfg (s : @St W) :
  (env_is_prod (cfg_env cfg) = true ->
   instances_stop answer cfg s =
   (mkSt (st_world s)
      (Print "If you know what you are doing, edit the code in bin/lib/ce.py, function instances_stop_cmd"
       :: Print "Operation aborted. This would bring down the site" :: st_trace s)
      (st_groups s), ROk tt)) /\
  (env_is_prod (cfg_env cfg) = false ->
   forall s' r, instances_stop answer cfg s = (s', r) ->
   exists new r0,
     st_trace s' = (new ++ Call (AreYouSure "stop all instances") r0 :: st_trace s)%list
     /\ (r0 <> ROk true -> new = [])).
Proof.
  split.
  - intro Hp. unfold instances_stop. rewrite Hp. reflexivity.
  - intros Hp s' r H. unfold instances_stop in H. rewrite Hp in H.
    unfold bind at 1, call at 1 in H.
    destruct (answer bool (st_world s) (AreYouSure "stop all instances"))
      as [w1 r0] eqn:E.
    destruct r0 as [[|]|e|]; cbn beta iota in H.
    + assert (Hrel : Rel trace_ext (insts <- pick_instances answer cfg;;
                                    call answer (ExecRemoteAll insts stop_cmd))).
      { apply (rel_bind trace_ext trace_ext_trans).
        - apply (rel_pick_instances answer trace_ext trace_ext_refl trace_ext_trans
                   (trace_ext_call answer)).
        - intros insts s0 s0' r' Hc.
          pose proof (trace_ext_call answer _ (ExecRemoteAll insts stop_cmd) s0) as Ht.
          rewrite Hc in Ht. exact Ht. }
      destruct (Hrel _ _ _ H) as [new Hn]. exists new, (ROk true).
      rewrite Hn. split; [reflexivity|]. intro Hne. exfalso. apply Hne. reflexivity.
    + injection H as <- _. exists [], (ROk false). split; [reflexivity|auto].
    + injection H as <- _. exists [], (RExn e). split; [reflexivity|auto].
    + injection H as <- _. exists [], RDiverge. split; [reflexivity|auto].
Qed.

Lemma instances_stop_prod_guard_witness :
  instances_stop toy_answer (mkConfig PROD false) (start toy_fleet) =
  (mkSt toy_fleet
     [Print "If you know what you are doing, edit the code in bin/lib/ce.py, function instances_stop_cmd";
      Print "Operation aborted. This would bring down the site"] [], ROk tt).
Proof.
  exact (proj1 (instances_stop_prod_guard toy_answer (mkConfig PROD false)
                  (start toy_fleet)) eq_refl).
Defined.

(** ** Frames: relations respected by every step a computation takes,
    given for the calls it can make *)

Section Frame.
Context {W : Type}.
Variable answer : forall A : Type, W -> api A -> W * res A.
Variable R : @St W -> @St W -> Prop.
Hypothesis R_refl : forall s, R s s.
Hypothesis R_trans : forall s1 s2 s3, R s1 s2 -> R s2 s3 -> R s1 s3.
Variable allowed : forall A, api A -> bool.
Hypothesis R_call :
  forall A (a : api A) s, allowed A a = true -> R s (fst (call answer a s)).
Hypothesis R_log : forall l m s, R s (fst (emit (Log l m) s)).
Hypothesis R_print : forall m s, R s (fst (emit (Print m) s)).
Hypothesis R_put : forall d s, R s (fst (put_groups d s)).

Lemma fb {A B} (m : @M W A) (k : A -> @M W B) :
  Rel R m -> (forall a, Rel R (k a)) -> Rel R (bind m k).
Proof. apply rel_bind; auto. Qed.

Lemma fret {A} (a : A) : Rel R (@ret W A a).
Proof. apply rel_ret; auto. Qed.

Lemma fraise {A} e : Rel R (@raise W A e).
Proof. apply rel_raise; auto. Qed.

Lemma fdiv {A} : Rel R (@diverge W A).
Proof. apply rel_diverge; auto. Qed.

Lemma fget : Rel R (@get_groups W).
Proof. apply rel_get_groups; auto. Qed.

Lemma fput d : Rel R (@put_groups W d).
Proof. intros s s' r H. pose proof (R_put d s) as Hp. rewrite H in Hp. exact Hp. Qed.

Lemma flog l m : Rel R (@log W l m).
Proof. intros s s' r H. pose proof (R_log l m s) as He. unfold log in H. rewrite H in He. exact He. Qed.

Lemma fprint m : Rel R (@print W m).
Proof. intros s s' r H. pose proof (R_print m s) as He. unfold print in H. rewrite H in He. exact He. Qed.

Lemma fcall {A} (a : api A) : allowed A a = true -> Rel R (call answer a).
Proof.
  intros Ha s s' r H. pose proof (R_call A a s Ha) as Hc. rewrite H in Hc. exact Hc.
Qed.

Lemma ftry {A} (m : @M W A) handler :
  Rel R m -> (forall e h, handler e = Some h -> Rel R h) ->
  Rel R (try_except m handler).
Proof. apply rel_try; auto. Qed.

Ltac allowed_tac :=
  match goal with
  | H : forall A (a : api A), _ -> allowed A a = true |- _ => apply H; reflexivity
  end.

Ltac fstep :=
  match goal with
  | |- Rel R (bind _ _) => apply fb; [|intro]
  | |- Rel R (call _ _) => apply fcall; allowed_tac
  | |- Rel R (ret _) => apply fret
  | |- Rel R (raise _) => apply fraise
  | |- Rel R diverge => apply fdiv
  | |- Rel R get_groups => apply fget
  | |- Rel R (put_groups _) => apply fput
  | |- Rel R (log _ _) => apply flog
  | |- Rel R (print _) => apply fprint
  | |- Rel R (if ?b then _ else _) => destruct b
  end.

Section Poll.
Hypothesis allowed_poll : forall A (a : api A), poll_api a = true -> allowed A a = true.

Lemma fr_elb_state_loop fuel inst state :
  Rel R (elb_state_loop answer fuel inst state).
Proof.
  revert inst state. induction fuel as [|f IH]; intros inst state; simpl.
  - apply fdiv.
  - repeat fstep; apply IH.
Qed.

Lemma fr_wait_for_elb_state fuel inst state :
  Rel R (wait_for_elb_state answer fuel inst state).
Proof. unfold wait_for_elb_state. repeat fstep. apply fr_elb_state_loop. Qed.

Lemma fr_is_everything_awesome inst : Rel R (is_everything_awesome answer inst).
Proof.
  unfold is_everything_awesome. apply ftry.
  - repeat fstep.
  - intros e h Hh. destruct e; try discriminate. injection Hh as <-. apply fret.
Qed.

Lemma fr_healthok_loop fuel inst : Rel R (healthok_loop answer fuel inst).
Proof.
  revert inst. induction fuel as [|f IH]; intro inst; simpl.
  - apply fdiv.
  - apply fb; [apply fr_is_everything_awesome | intro ok].
    repeat fstep. apply IH.
Qed.

Lemma fr_wait_for_healthok fuel inst : Rel R (wait_for_healthok answer fuel inst).
Proof. unfold wait_for_healthok. repeat fstep. apply fr_healthok_loop. Qed.

End Poll.

Section Restart.
Hypothesis allowed_restart :
  forall A (a : api A), restart_api a = true -> allowed A a = true.

Lemma allowed_poll_of_restart A (a : api A) : poll_api a = true -> allowed A a = true.
Proof. intro H. apply allowed_restart. destruct a; try discriminate; reflexivity. Qed.

Lemma fr_protect_and_standby g inst : Rel R (protect_and_standby answer g inst).
Proof. unfold protect_and_standby. repeat fstep. Qed.

Lemma fr_restart_in_standby fuel g inst :
  Rel R (restart_in_standby answer fuel g inst).
Proof.
  unfold restart_in_standby.
  repeat (fstep || apply (fr_wait_for_healthok allowed_poll_of_restart)
          || apply (fr_wait_for_elb_state allowed_poll_of_restart)).
Qed.

Lemma fr_restart_one_instance fuel g inst :
  Rel R (restart_one_instance answer fuel g inst).
Proof.
  unfold restart_one_instance. apply fb; [apply fr_protect_and_standby | intro].
  apply fr_restart_in_standby.
Qed.

End Restart.

Section Loop.
Hypothesis allowed_loop :
  forall A (a : api A), loop_api a = true -> allowed A a = true.

Lemma allowed_restart_of_loop A (a : api A) :
  restart_api a = true -> allowed A a = true.
Proof. intro H. apply allowed_loop. destruct a; try discriminate; reflexivity. Qed.

Lemma fr_restart_iteration fuel inst failed :
  Rel R (restart_iteration answer fuel inst failed).
Proof.
  unfold restart_iteration. repeat fstep.
  match goal with o : option AsInstanceStatus |- _ => destruct o as [st|] end;
    repeat fstep.
  apply ftry.
  - apply fb; [apply (fr_restart_one_instance allowed_restart_of_loop) | intro].
    apply fret.
  - intros e h Hh. destruct (is_runtime_error e); [|discriminate].
    injection Hh as <-. repeat fstep.
Qed.

Lemma fr_restart_loop fuel insts failed :
  Rel R (restart_loop answer fuel insts failed).
Proof.
  revert failed. induction insts as [|inst rest IH]; intro failed; simpl.
  - apply fret.
  - apply fb; [apply fr_restart_iteration | intro; apply IH].
Qed.

Lemma fr_pick_instances cfg : Rel R (pick_instances answer cfg).
Proof.
  unfold pick_instances, get_instances_for_environment.
  destruct (cfg_supports_blue_green cfg); repeat fstep.
  apply ftry; [repeat fstep|].
  intros e h Hh. injection Hh as <-. apply fraise.
Qed.

Lemma fr_pick_instance fuel cfg : Rel R (pick_instance answer fuel cfg).
Proof.
  unfold pick_instance. apply fb; [apply fr_pick_instances | intro insts].
  assert (Hl : forall f, Rel R (pick_instance_loop answer f insts)).
  { induction f as [|f IH]; simpl; [apply fdiv|].
    repeat fstep.
    match goal with l : string |- _ => destruct (py_int l) as [i|] end;
      [destruct (py_index insts i)|]; [apply fret | apply IH | apply IH]. }
  destruct insts as [|x [|y r]]; [apply Hl | apply fret | apply Hl].
Qed.

End Loop.

Lemma fr_restore_groups items :
  (forall g n, allowed unit (UpdateDesiredCapacity g n) = true) ->
  Rel R (restore_groups answer items).
Proof.
  intro Hu. induction items as [|[g d] rest IH]; simpl.
  - apply fret.
  - apply fb; [apply flog | intro]. apply fb; [apply fcall, Hu | intro]. exact IH.
Qed.

End Frame.

(** ** Projections of the trace left alone by other events *)

Definition feq {W X} (f : list event -> list X) (s s' : @St W) : Prop :=
  f (st_trace s') = f (st_trace s).

Lemma feq_refl {W X} (f : list event -> list X) : forall s : @St W, feq f s s.
Proof. intro. reflexivity. Qed.

Lemma feq_trans {W X} (f : list event -> list X) :
  forall s1 s2 s3 : @St W, feq f s1 s2 -> feq f s2 s3 -> feq f s1 s3.
Proof. unfold feq. intros s1 s2 s3 H1 H2. congruence. Qed.

Lemma feq_put {W X} (f : list event -> list X) :
  forall d (s : @St W), feq f s (fst (put_groups d s)).
Proof. intros. reflexivity. Qed.

Lemma feq_call {W X} (f : list event -> list X)
    (answer : forall A : Type, W -> api A -> W * res A) (allowed : forall A, api A -> bool) :
  (forall A (a : api A) r tr, allowed A a = true -> f (Call a r :: tr) = f tr) ->
  forall A (a : api A) (s : @St W), allowed A a = true -> feq f s (fst (call answer a s)).
Proof.
  intros Hf A a s Ha. unfold feq. rewrite trace_call. apply Hf, Ha.
Qed.

Lemma lifecycle_ops_other A (a : api A) r tr :
  negb (is_lifecycle_call a) = true -> lifecycle_ops (Call a r :: tr) = lifecycle_ops tr.
Proof. destruct a; try discriminate; reflexivity. Qed.

Lemma capacity_updates_other A (a : api A) r tr :
  negb (is_capacity_update a) = true -> capacity_updates (Call a r :: tr) = capacity_updates tr.
Proof. destruct a; try discriminate; reflexivity. Qed.

Lemma update_messages_other A (a : api A) r tr :
  negb (is_motd_update a) = true -> update_messages (Call a r :: tr) = update_messages tr.
Proof. destruct a; try discriminate; reflexivity. Qed.

Lemma described_other A (a : api A) r tr :
  negb (is_describe a) = true -> described (Call a r :: tr) = described tr.
Proof. destruct a; try discriminate; reflexivity. Qed.

Lemma poll_not_lifecycle A (a : api A) :
  poll_api a = true -> negb (is_lifecycle_call a) = true.
Proof. destruct a; try discriminate; reflexivity. Qed.

Lemma restart_not_describe A (a : api A) :
  restart_api a = true -> negb (is_describe a) = true.
Proof. destruct a; try discriminate; reflexivity. Qed.

Lemma loop_not_capacity A (a : api A) :
  loop_api a = true -> negb (is_capacity_update a) = true.
Proof. destruct a; try discriminate; reflexivity. Qed.

Lemma loop_not_motd A (a : api A) :
  loop_api a = true -> negb (is_motd_update a) = true.
Proof. destruct a; try discriminate; reflexivity. Qed.

Create HintDb frames.
#[export] Hint Resolve feq_refl feq_trans feq_put lifecycle_ops_other
  capacity_updates_other update_messages_other described_other
  poll_not_lifecycle restart_not_describe loop_not_capacity loop_not_motd : frames.
#[export] Hint Extern 1 (feq _ _ (fst (call _ _ _))) =>
  eapply feq_call; [eauto with frames | assumption] : frames.
#[export] Hint Extern 1 (feq _ _ (fst (emit _ _))) => reflexivity : frames.

(** ** Calls that come in a fixed order *)

Section Seq.
Context {W : Type} {X : Type}.
Variable answer : forall A : Type, W -> api A -> W * res A.
Variable f : list event -> list X.

(** The calls [m] makes, as seen by [f], are a prefix of [L]; all of [L]
    when [m] returns. *)
Definition Seq {A} (L : list X) (m : @M W A) : Prop :=
  forall s s' r, m s = (s', r) ->
  exists p, f (st_trace s') = (p ++ f (st_trace s))%list
            /\ (exists q, L = (rev p ++ q)%list)
            /\ (forall a, r = ROk a -> rev p = L).

Lemma seq_bind {A B} L L1 L2 (m : @M W A) (k : A -> @M W B) :
  Seq L1 m -> (forall a, Seq L2 (k a)) -> L = (L1 ++ L2)%list ->
  Seq L (bind m k).
Proof.
  intros Hm Hk -> s s' r H. unfold bind in H.
  destruct (m s) as [s1 [a|e|]] eqn:E.
  - destruct (Hm _ _ _ E) as (p1 & F1 & _ & C1). specialize (C1 a eq_refl).
    destruct (Hk a _ _ _ H) as (p2 & F2 & [q2 P2] & C2).
    exists (p2 ++ p1)%list. rewrite F2, F1, app_assoc. split; [reflexivity|].
    rewrite rev_app_distr, C1. split.
    + exists q2. rewrite P2, app_assoc. reflexivity.
    + intros b Hb. rewrite (C2 b Hb). reflexivity.
  - injection H as <- <-. destruct (Hm _ _ _ E) as (p1 & F1 & [q1 P1] & _).
    exists p1. split; [exact F1|]. split; [|discriminate].
    exists (q1 ++ L2)%list. rewrite P1, app_assoc. reflexivity.
  - injection H as <- <-. destruct (Hm _ _ _ E) as (p1 & F1 & [q1 P1] & _).
    exists p1. split; [exact F1|]. split; [|discriminate].
    exists (q1 ++ L2)%list. rewrite P1, app_assoc. reflexivity.
Qed.

Lemma seq_frame {A} (m : @M W A) : Rel (feq f) m -> Seq [] m.
Proof.
  intros Hm s s' r H. exists []. split; [exact (Hm _ _ _ H)|].
  split; [exists []; reflexivity | reflexivity].
Qed.

Lemma seq_call {A} (a : api A) x :
  (forall r tr, f (Call a r :: tr) = x :: f tr) -> Seq [x] (call answer a).
Proof.
  intros Hx s s' r H. exists [x]. unfold call in H.
  destruct (answer A (st_world s) a) as [w r0]. injection H as <- <-. simpl.
  rewrite Hx. split; [reflexivity|]. split; [exists []; reflexivity | reflexivity].
Qed.

End Seq.

Section FrameFeq.
Context {W : Type} {X : Type}.
Variable answer : forall A : Type, W -> api A -> W * res A.
Variable f : list event -> list X.
Variable allowed : forall A, api A -> bool.
Hypothesis f_other :
  forall A (a : api A) r tr, allowed A a = true -> f (Call a r :: tr) = f tr.
Hypothesis f_log : forall l m tr, f (Log l m :: tr) = f tr.
Hypothesis f_print : forall m tr, f (Print m :: tr) = f tr.

Lemma ff_call_ok : forall A (a : api A) (s : @St W),
  allowed A a = true -> feq f s (fst (call answer a s)).
Proof. apply feq_call. exact f_other. Qed.

Lemma ff_log_ok : forall l m (s : @St W), feq f s (fst (emit (Log l m) s)).
Proof. intros. apply f_log. Qed.

Lemma ff_print_ok : forall m (s : @St W), feq f s (fst (emit (Print m) s)).
Proof. intros. apply f_print. Qed.

Lemma ff_call {A} (a : api A) : allowed A a = true -> Rel (feq f) (call answer a).
Proof.
  intros Ha s s' r H. pose proof (ff_call_ok A a s Ha) as Hc. rewrite H in Hc. exact Hc.
Qed.

Lemma ff_atom_log l m : Rel (feq f) (@log W l m).
Proof. intros s s' r H. injection H as <- _. apply f_log. Qed.

Lemma ff_atom_print m : Rel (feq f) (@print W m).
Proof. intros s s' r H. injection H as <- _. apply f_print. Qed.

Ltac ff_side :=
  first [ exact (feq_refl f) | exact (feq_trans f) | exact (feq_put f)
        | exact ff_call_ok | exact ff_log_ok | exact ff_print_ok
        | assumption ].

Lemma ff_wait_for_healthok fuel inst :
  (forall A (a : api A), poll_api a = true -> allowed A a = true) ->
  Rel (feq f) (wait_for_healthok answer fuel inst).
Proof.
  intro Hp. apply fr_wait_for_healthok with (allowed := allowed);
    ff_side.
Qed.

Lemma ff_wait_for_elb_state fuel inst state :
  (forall A (a : api A), poll_api a = true -> allowed A a = true) ->
  Rel (feq f) (wait_for_elb_state answer fuel inst state).
Proof.
  intro Hp. apply fr_wait_for_elb_state with (allowed := allowed);
    ff_side.
Qed.

Lemma ff_restart_one_instance fuel g inst :
  (forall A (a : api A), restart_api a = true -> allowed A a = true) ->
  Rel (feq f) (restart_one_instance answer fuel g inst).
Proof.
  intro Hp. apply fr_restart_one_instance with (allowed := allowed);
    ff_side.
Qed.

Lemma ff_restart_loop fuel insts failed :
  (forall A (a : api A), loop_api a = true -> allowed A a = true) ->
  Rel (feq f) (restart_loop answer fuel insts failed).
Proof.
  intro Hp. apply fr_restart_loop with (allowed := allowed);
    ff_side.
Qed.

Lemma ff_pick_instances cfg :
  (forall A (a : api A), loop_api a = true -> allowed A a = true) ->
  Rel (feq f) (pick_instances answer cfg).
Proof.
  intro Hp. apply fr_pick_instances with (allowed := allowed);
    ff_side.
Qed.

Lemma ff_pick_instance fuel cfg :
  (forall A (a : api A), loop_api a = true -> allowed A a = true) ->
  Rel (feq f) (pick_instance answer fuel cfg).
Proof.
  intro Hp. apply fr_pick_instance with (allowed := allowed);
    ff_side.
Qed.

Lemma ff_restore_groups items :
  (forall g n, allowed unit (UpdateDesiredCapacity g n) = true) ->
  Rel (feq f) (restore_groups answer items).
Proof.
  intro Hp. apply fr_restore_groups with (allowed := allowed);
    ff_side.
Qed.

End FrameFeq.

Ltac seq_tac al sub :=
  repeat match goal with
  | |- Seq _ _ (bind _ _) => eapply seq_bind; [ | intro | ]
  | |- Seq _ _ (call _ _) =>
      first [ apply seq_call; intros; reflexivity
            | apply seq_frame; apply ff_call with (allowed := al);
              [intros ? ? ? ? Hal; revert Hal; sub | reflexivity] ]
  | |- Seq _ _ (log _ _) => apply seq_frame, ff_atom_log; intros; reflexivity
  | |- Seq _ _ (print _) => apply seq_frame, ff_atom_print; intros; reflexivity
  | |- Seq _ _ (ret _) => apply seq_frame, rel_ret, feq_refl
  | |- Seq _ _ get_groups => apply seq_frame, rel_get_groups, feq_refl
  | |- Seq _ _ (put_groups _) =>
      apply seq_frame; intros ? ? ? Hx; injection Hx as <- _; reflexivity
  | |- Seq _ _ (if ?b then _ else _) => destruct b
  | |- _ = _ => reflexivity
  end.

Lemma seq_restart_one_instance_lifecycle {W} (answer : forall A : Type, W -> api A -> W * res A)
    fuel g inst :
  Seq lifecycle_ops
    [LProtect g [inst] true; LEnter [inst] g; LExit [inst] g; LProtect g [inst] false]
    (restart_one_instance answer fuel g inst).
Proof.
  unfold restart_one_instance, protect_and_standby, restart_in_standby.
  seq_tac (fun A (a : api A) => negb (is_lifecycle_call a)) ltac:(apply lifecycle_ops_other).
  1, 2: apply seq_frame.
  - apply ff_wait_for_healthok with (allowed := fun A (a : api A) => negb (is_lifecycle_call a));
      first [exact poll_not_lifecycle | intros; apply lifecycle_ops_other; assumption
            | intros; reflexivity].
  - apply ff_wait_for_elb_state with (allowed := fun A (a : api A) => negb (is_lifecycle_call a));
      first [exact poll_not_lifecycle | intros; apply lifecycle_ops_other; assumption
            | intros; reflexivity].
  - reflexivity.
Qed.

Ltac ff_solve oth notl :=
  first [ exact notl | intros; apply oth; assumption | intros; reflexivity ].

Lemma cap_rel_pick_instances {W} (answer : forall A : Type, W -> api A -> W * res A) cfg :
  Rel (feq capacity_updates) (pick_instances answer cfg).
Proof.
  apply ff_pick_instances with (allowed := fun A (a : api A) => negb (is_capacity_update a));
    ff_solve capacity_updates_other loop_not_capacity.
Qed.

Lemma cap_rel_pick_instance {W} (answer : forall A : Type, W -> api A -> W * res A) fuel cfg :
  Rel (feq capacity_updates) (pick_instance answer fuel cfg).
Proof.
  apply ff_pick_instance with (allowed := fun A (a : api A) => negb (is_capacity_update a));
    ff_solve capacity_updates_other loop_not_capacity.
Qed.

Lemma cap_rel_restart_loop {W} (answer : forall A : Type, W -> api A -> W * res A) fuel insts failed :
  Rel (feq capacity_updates) (restart_loop answer fuel insts failed).
Proof.
  apply ff_restart_loop with (allowed := fun A (a : api A) => negb (is_capacity_update a));
    ff_solve capacity_updates_other loop_not_capacity.
Qed.

Lemma restart_not_capacity A (a : api A) :
  restart_api a = true -> negb (is_capacity_update a) = true.
Proof. destruct a; try discriminate; reflexivity. Qed.

Lemma cap_rel_restart_one_instance {W} (answer : forall A : Type, W -> api A -> W * res A) fuel g inst :
  Rel (feq capacity_updates) (restart_one_instance answer fuel g inst).
Proof.
  apply ff_restart_one_instance with (allowed := fun A (a : api A) => negb (is_capacity_update a));
    ff_solve capacity_updates_other restart_not_capacity.
Qed.

Lemma motd_rel_pick_instances {W} (answer : forall A : Type, W -> api A -> W * res A) cfg :
  Rel (feq update_messages) (pick_instances answer cfg).
Proof.
  apply ff_pick_instances with (allowed := fun A (a : api A) => negb (is_motd_update a));
    ff_solve update_messages_other loop_not_motd.
Qed.

Lemma motd_rel_restart_loop {W} (answer : forall A : Type, W -> api A -> W * res A) fuel insts failed :
  Rel (feq update_messages) (restart_loop answer fuel insts failed).
Proof.
  apply ff_restart_loop with (allowed := fun A (a : api A) => negb (is_motd_update a));
    ff_solve update_messages_other loop_not_motd.
Qed.

Lemma motd_rel_restore_groups {W} (answer : forall A : Type, W -> api A -> W * res A) items :
  Rel (feq update_messages) (restore_groups answer items).
Proof.
  apply ff_restore_groups with (allowed := fun A (a : api A) => negb (is_motd_update a));
    ff_solve update_messages_other loop_not_motd.
Qed.

(** The restoration loop issues one update per ledger entry, in order. *)
Lemma restore_groups_capacity_updates {W} (answer : forall A : Type, W -> api A -> W * res A)
    items (s s' : @St W) :
  restore_groups answer items s = (s', ROk tt) ->
  capacity_updates (st_trace s') = (rev items ++ capacity_updates (st_trace s))%list
  /\ st_groups s' = st_groups s.
Proof.
  revert s. induction items as [|[g d] rest IH]; intros s H; simpl in H.
  - injection H as <-. auto.
  - step_ok H as s1 u1 E1. apply emit_ok in E1 as (_ & T1 & G1).
    step_ok H as s2 u2 E2. destruct u2. apply call_ok in E2 as (_ & T2 & G2).
    destruct (IH _ H) as [C G]. rewrite C, T2, T1. simpl.
    split; [rewrite <- app_assoc; reflexivity | congruence].
Qed.

Lemma bind_cases {W A B} (m : @M W A) (k : A -> @M W B) s s' r :
  bind m k s = (s', r) ->
  (exists s1 a, m s = (s1, ROk a) /\ k a s1 = (s', r))
  \/ (exists e, m s = (s', RExn e) /\ r = RExn e)
  \/ (m s = (s', RDiverge) /\ r = RDiverge).
Proof.
  unfold bind. destruct (m s) as [s1 [a|e|]]; intro H.
  - left. eauto.
  - injection H as <- <-. right. left. eauto.
  - injection H as <- <-. right. right. auto.
Qed.

Lemma call_feq {W X} (f : list event -> list X)
    (answer : forall A : Type, W -> api A -> W * res A) A (a : api A) (s s' : @St W) r :
  call answer a s = (s', r) -> (forall r tr, f (Call a r :: tr) = f tr) -> feq f s s'.
Proof.
  intros H Hf. unfold feq. pose proof (trace_call answer A a s) as T.
  rewrite H in T. simpl in T. rewrite T. apply Hf.
Qed.

(** ** Extra properties *)

(** Extra X1.  The protection and standby requests of [restart_one_instance]
    come in the order protect, enter standby, exit standby, unprotect, all
    four when it returns; when it raises (or is still polling) they are a
    prefix of that order, so the instance can be left protected, or
    protected and in standby. *)
Theorem restart_one_instance_lifecycle_order
    {W} (answer : forall A : Type, W -> api A -> W * res A)
    fuel g inst (s s' : @St W) r :
  restart_one_instance answer fuel g inst s = (s', r) ->
  exists p,
    lifecycle_ops (st_trace s') = (p ++ lifecycle_ops (st_trace s))%list
    /\ (exists q, [LProtect g [inst] true; LEnter [inst] g; LExit [inst] g;
                   LProtect g [inst] false] = (rev p ++ q)%list)
    /\ (r = ROk tt -> rev p = [LProtect g [inst] true; LEnter [inst] g;
                               LExit [inst] g; LProtect g [inst] false]).
Proof.
  intro H.
  destruct (seq_restart_one_instance_lifecycle answer fuel g inst s s' r H)
    as (p & F & P & C).
  exists p. split; [exact F|]. split; [exact P|]. intro Hr. exact (C tt Hr).
Qed.

(** On [toy_stopped] the restart raises in [wait_for_elb_state], after the
    instance left standby: [i-1] stays protected. *)
Lemma restart_one_instance_lifecycle_order_witness :
  lifecycle_ops (st_trace (fst (restart_one_instance toy_answer 5 "asg-1" "i-1"
                                  (start toy_stopped))))
    = [LExit ["i-1"] "asg-1"; LEnter ["i-1"] "asg-1";
       LProtect "asg-1" ["i-1"] true] /\
  exists p,
    lifecycle_ops (st_trace (fst (restart_one_instance toy_answer 5 "asg-1" "i-1"
                                    (start toy_stopped))))
      = (p ++ lifecycle_ops (st_trace (start toy_stopped)))%list
    /\ (exists q, [LProtect "asg-1" ["i-1"] true; LEnter ["i-1"] "asg-1";
                   LExit ["i-1"] "asg-1"; LProtect "asg-1" ["i-1"] false]
                  = (rev p ++ q)%list)
    /\ (snd (restart_one_instance toy_answer 5 "asg-1" "i-1" (start toy_stopped))
          = ROk tt ->
        rev p = [LProtect "asg-1" ["i-1"] true; LEnter ["i-1"] "asg-1";
                 LExit ["i-1"] "asg-1"; LProtect "asg-1" ["i-1"] false]).
Proof.
  split; [vm_compute; reflexivity|].
  exact (restart_one_instance_lifecycle_order toy_answer 5 "asg-1" "i-1"
           (start toy_stopped) _ _ (surjective_pairing _)).
Defined.

(** Extra X2.  When [instances_restart] reaches [sys.exit], its
    [update_auto_scaling_group] calls are exactly the entries of
    [modified_groups], one per group (the keys are distinct), in the
    dictionary's order: the pickers and the restart loop make no
    [update_auto_scaling_group] call of their own (the loop's standby
    requests can still move desired capacities). *)
Theorem instances_restart_updates_follow_ledger
    {W} (answer : forall A : Type, W -> api A -> W * res A)
    fuel cfg motd (s s' : @St W) c :
  instances_restart answer fuel cfg motd s = (s', ROk (Some c)) ->
  capacity_updates (st_trace s')
    = (rev (st_groups s') ++ capacity_updates (st_trace s))%list
  /\ keys_nodup (st_groups s').
Proof.
  intro H. unfold instances_restart in H.
  step_ok H as s1 rel E1. apply call_ok in E1 as (_ & T1 & _).
  step_ok H as s2 sure E2. apply call_ok in E2 as (_ & T2 & _).
  destruct (negb sure); [discriminate|].
  step_ok H as s3 u3 E3. destruct u3. apply call_ok in E3 as (_ & T3 & _).
  step_ok H as s4 u4 E4. injection E4 as <- _.
  step_ok H as s5 insts E5. pose proof (cap_rel_pick_instances answer cfg _ _ _ E5) as C5.
  pose proof (pick_instances_keys_nodup answer cfg _ _ _ E5) as N5.
  step_ok H as s6 failed E6.
  pose proof (cap_rel_restart_loop answer fuel insts false _ _ _ E6) as C6.
  pose proof (restart_loop_keys_nodup answer fuel insts false _ _ _ E6) as N6.
  step_ok H as s7 mg E7. injection E7 as <- <-.
  step_ok H as s8 u8 E8. destruct u8.
  destruct (restore_groups_capacity_updates answer _ _ _ E8) as [C8 G8].
  step_ok H as s9 u9 E9. destruct u9. apply call_ok in E9 as (_ & T9 & G9).
  step_ok H as s10 u10 E10. apply emit_ok in E10 as (_ & T10 & G10).
  injection H as <- _.
  unfold feq in C5, C6. simpl in C5, N5.
  split.
  - rewrite T10, T9. simpl. rewrite C8, G10, G9, G8, C6, C5, T3, T2, T1.
    reflexivity.
  - rewrite G10, G9, G8. apply N6, N5. constructor.
Qed.

Lemma instances_restart_updates_follow_ledger_witness :
  capacity_updates (st_trace (fst (instances_restart toy_answer 5 blue_green "m"
                                     (start toy_fleet))))
    = (rev (st_groups (fst (instances_restart toy_answer 5 blue_green "m"
                              (start toy_fleet)))) ++ [])%list
  /\ keys_nodup (st_groups (fst (instances_restart toy_answer 5 blue_green "m"
                                   (start toy_fleet)))).
Proof.
  exact (instances_restart_updates_follow_ledger toy_answer 5 blue_green "m"
           (start toy_fleet) _ 0 (surjective_pairing _)).
Defined.

Lemma desc_rel_restart_one_instance {W} (answer : forall A : Type, W -> api A -> W * res A)
    fuel g inst :
  Rel (feq described) (restart_one_instance answer fuel g inst).
Proof.
  apply ff_restart_one_instance with (allowed := fun A (a : api A) => negb (is_describe a));
    ff_solve described_other restart_not_describe.
Qed.

Lemma seq_restart_iteration_described {W} (answer : forall A : Type, W -> api A -> W * res A)
    fuel inst failed :
  Seq described [inst] (restart_iteration answer fuel inst failed).
Proof.
  unfold restart_iteration.
  apply seq_bind with (L1 := []) (L2 := [inst]);
    [apply seq_frame, ff_atom_log; intros; reflexivity | intro | reflexivity].
  apply seq_bind with (L1 := [inst]) (L2 := []);
    [apply seq_call; intros; reflexivity | intros o | reflexivity].
  apply seq_frame.
  destruct o as [st|]; [destruct (negb _)|].
  - apply rel_bind; [exact (feq_trans described) | apply ff_atom_log; intros; reflexivity
                    | intro; apply rel_ret, feq_refl].
  - apply rel_try; [exact (feq_trans described) | |].
    + apply rel_bind; [exact (feq_trans described) | apply desc_rel_restart_one_instance
                      | intro; apply rel_ret, feq_refl].
    + intros e h Hh. destruct (is_runtime_error e); [|discriminate].
      injection Hh as <-.
      apply rel_bind; [exact (feq_trans described) | apply ff_atom_log; intros; reflexivity
                      | intro; apply rel_ret, feq_refl].
  - apply rel_bind; [exact (feq_trans described) | apply ff_atom_log; intros; reflexivity
                    | intro; apply rel_ret, feq_refl].
Qed.

Lemma seq_restart_loop_described {W} (answer : forall A : Type, W -> api A -> W * res A)
    fuel insts failed :
  Seq described insts (restart_loop answer fuel insts failed).
Proof.
  revert failed. induction insts as [|i rest IH]; intro failed; simpl.
  - apply seq_frame, rel_ret, feq_refl.
  - apply seq_bind with (L1 := [i]) (L2 := rest);
      [apply seq_restart_iteration_described | intro; apply IH | reflexivity].
Qed.

(** Extra X4.  The restart loop looks each instance up in the auto scaling
    group once, in the order of [to_restart]: the lookups made are a
    prefix of the list, and all of it when the loop finishes. *)
Theorem restart_loop_describes_in_order
    {W} (answer : forall A : Type, W -> api A -> W * res A)
    fuel insts failed (s s' : @St W) r :
  restart_loop answer fuel insts failed s = (s', r) ->
  exists p,
    described (st_trace s') = (p ++ described (st_trace s))%list
    /\ (exists q, insts = (rev p ++ q)%list)
    /\ (forall b, r = ROk b -> rev p = insts).
Proof.
  intro H. exact (seq_restart_loop_described answer fuel insts failed s s' r H).
Qed.

(** On [toy_stopped] the first restart fails with a [RuntimeError], and
    the loop still goes on to [i-2]. *)
Lemma restart_loop_describes_in_order_witness :
  described (st_trace (fst (restart_loop toy_answer 5 ["i-1"; "i-2"] false
                             (start toy_stopped)))) = ["i-2"; "i-1"] /\
  exists p,
    described (st_trace (fst (restart_loop toy_answer 5 ["i-1"; "i-2"] false
                               (start toy_stopped))))
      = (p ++ described (st_trace (start toy_stopped)))%list
    /\ (exists q, ["i-1"; "i-2"] = (rev p ++ q)%list)
    /\ (forall b, snd (restart_loop toy_answer 5 ["i-1"; "i-2"] false
                         (start toy_stopped)) = ROk b ->
                  rev p = ["i-1"; "i-2"]).
Proof.
  split; [vm_compute; reflexivity|].
  exact (restart_loop_describes_in_order toy_answer 5 ["i-1"; "i-2"] false
           (start toy_stopped) _ _ (surjective_pairing _)).
Defined.

(** The loop of [wait_for_elb_state] returns right after a refresh showing
    the awaited state. *)
Lemma elb_state_loop_returns_on_state
    {W} (answer : forall A : Type, W -> api A -> W * res A)
    fuel inst state (s s' : @St W) :
  elb_state_loop answer fuel inst state s = (s', ROk tt) ->
  exists v mid,
    st_trace s' = (Log Info "...done" :: Log Debug "State is %s"
                   :: Call (InstanceUpdate inst) (ROk v) :: mid ++ st_trace s)%list
    /\ state_name v = "running" /\ elb_health v = state.
Proof.
  revert s. induction fuel as [|f IH]; intros s H; simpl in H.
  - discriminate H.
  - step_ok H as s1 v E1. apply call_ok in E1 as (_ & T1 & _).
    destruct (negb (String.eqb (state_name v) "running")) eqn:Hr;
      [discriminate H|].
    apply negb_false_iff, String.eqb_eq in Hr.
    step_ok H as s2 u2 E2. apply emit_ok in E2 as (_ & T2 & _).
    destruct (String.eqb (elb_health v) state) eqn:He.
    + apply emit_ok in H as (_ & T3 & _). apply String.eqb_eq in He.
      exists v, []. rewrite T3, T2, T1. auto.
    + step_ok H as s3 u3 E3. apply call_ok in E3 as (_ & T3 & _).
      destruct (IH _ H) as (v' & mid & T & R1 & R2).
      exists v', (mid ++ [Call (Sleep 5) (ROk u3); Log Debug "State is %s";
                         Call (InstanceUpdate inst) (ROk v)])%list.
      rewrite T, T3, T2, T1, <- app_assoc. auto.
Qed.

(** Extra X5.  [wait_for_elb_state] returns only after an
    [instance.update()] whose compute state is [running] and whose ELB
    health is the awaited state; that refresh is the last call it makes. *)
Theorem wait_for_elb_state_returns_on_state
    {W} (answer : forall A : Type, W -> api A -> W * res A)
    fuel inst state (s s' : @St W) :
  wait_for_elb_state answer fuel inst state s = (s', ROk tt) ->
  exists v mid,
    st_trace s' = (Log Info "...done" :: Log Debug "State is %s"
                   :: Call (InstanceUpdate inst) (ROk v) :: mid ++ st_trace s)%list
    /\ state_name v = "running" /\ elb_health v = state.
Proof.
  intro H. unfold wait_for_elb_state in H.
  step_ok H as s1 u1 E1. apply emit_ok in E1 as (_ & T1 & _).
  destruct (elb_state_loop_returns_on_state answer fuel inst state s1 s' H)
    as (v & mid & T & R1 & R2).
  exists v, (mid ++ [Log Info "Waiting for %s to reach ELB state '%s'..."])%list.
  rewrite T, T1, <- app_assoc. auto.
Qed.

Lemma wait_for_elb_state_returns_on_state_witness :
  snd (wait_for_elb_state toy_answer 3 "i-1" "healthy" (start toy_fleet)) = ROk tt /\
  exists v mid,
    st_trace (fst (wait_for_elb_state toy_answer 3 "i-1" "healthy" (start toy_fleet)))
      = (Log Info "...done" :: Log Debug "State is %s"
         :: Call (InstanceUpdate "i-1") (ROk v) :: mid
         ++ st_trace (start toy_fleet))%list
    /\ state_name v = "running" /\ elb_health v = "healthy".
Proof.
  split; [vm_compute; reflexivity|].
  apply (wait_for_elb_state_returns_on_state toy_answer 3 "i-1" "healthy"
           (start toy_fleet)).
  vm_compute. reflexivity.
Defined.

Lemma is_everything_awesome_trace {W} (answer : forall A : Type, W -> api A -> W * res A)
    inst (s s' : @St W) r :
  is_everything_awesome answer inst s = (s', r) ->
  exists r0,
    st_trace s' = Call (ExecRemote inst healthcheck_cmd) r0 :: st_trace s
    /\ (r = ROk true ->
        exists resp, r0 = ROk resp /\ py_strip resp = "Everything is awesome").
Proof.
  unfold is_everything_awesome, try_except, bind, call.
  destruct (answer _ (st_world s) (ExecRemote inst healthcheck_cmd)) as [w [resp|e|]];
    intro H.
  - injection H as <- <-. exists (ROk resp). split; [reflexivity|].
    intro Hr. injection Hr as Hr. exists resp. split; [reflexivity|].
    apply String.eqb_eq. exact Hr.
  - destruct e; injection H as <- <-; eexists; (split; [reflexivity|]);
      intro Hr; discriminate Hr.
  - injection H as <- <-. eexists. split; [reflexivity|]. intro Hr; discriminate Hr.
Qed.

Lemma healthok_loop_ok {W} (answer : forall A : Type, W -> api A -> W * res A)
    fuel inst (s s' : @St W) :
  healthok_loop answer fuel inst s = (s', ROk tt) ->
  exists resp mid,
    st_trace s' = (Call (ExecRemote inst healthcheck_cmd) (ROk resp) :: mid
                   ++ st_trace s)%list
    /\ py_strip resp = "Everything is awesome".
Proof.
  revert s. induction fuel as [|f IH]; intros s H; simpl in H.
  - discriminate H.
  - step_ok H as s1 ok E1.
    destruct (is_everything_awesome_trace answer inst s s1 _ E1) as (r0 & T1 & Hok).
    destruct ok.
    + injection H as <-. destruct (Hok eq_refl) as (resp & -> & Hs).
      exists resp, []. auto.
    + step_ok H as s2 u2 E2. apply emit_ok in E2 as (_ & T2 & _).
      step_ok H as s3 u3 E3. apply call_ok in E3 as (_ & T3 & _).
      destruct (IH _ H) as (resp & mid & T & Hs).
      exists resp, (mid ++ [Call (Sleep 10) (ROk u3); Print ".";
                           Call (ExecRemote inst healthcheck_cmd) r0])%list.
      rewrite T, T3, T2, T1, <- app_assoc. auto.
Qed.

(** Extra X6.  [wait_for_healthok] returns only after a healthcheck whose
    output, stripped, is [Everything is awesome]; that healthcheck is the
    last call it makes before printing its final line. *)
Theorem wait_for_healthok_returns_on_awesome
    {W} (answer : forall A : Type, W -> api A -> W * res A)
    fuel inst (s s' : @St W) :
  wait_for_healthok answer fuel inst s = (s', ROk tt) ->
  exists resp mid,
    st_trace s' = (Print "Ok, Everything is awesome!"
                   :: Call (ExecRemote inst healthcheck_cmd) (ROk resp) :: mid
                   ++ st_trace s)%list
    /\ py_strip resp = "Everything is awesome".
Proof.
  unfold wait_for_healthok. intro H.
  step_ok H as s1 u1 E1. apply emit_ok in E1 as (_ & T1 & _).
  step_ok H as s2 u2 E2. apply emit_ok in E2 as (_ & T2 & _).
  step_ok H as s3 u3 E3. destruct u3.
  destruct (healthok_loop_ok answer fuel inst s2 s3 E3) as (resp & mid & T3 & Hs).
  apply emit_ok in H as (_ & T4 & _).
  exists resp, (mid ++ [Print "Waiting"; Log Info "Waiting for instance to be Online %s"])%list.
  rewrite T4, T3, T2, T1, <- app_assoc. auto.
Qed.

Lemma wait_for_healthok_returns_on_awesome_witness :
  snd (wait_for_healthok toy_answer 3 "i-1" (start toy_fleet)) = ROk tt /\
  exists resp mid,
    st_trace (fst (wait_for_healthok toy_answer 3 "i-1" (start toy_fleet)))
      = (Print "Ok, Everything is awesome!"
         :: Call (ExecRemote "i-1" healthcheck_cmd) (ROk resp) :: mid
         ++ st_trace (start toy_fleet))%list
    /\ py_strip resp = "Everything is awesome".
Proof.
  split; [vm_compute; reflexivity|].
  apply (wait_for_healthok_returns_on_awesome toy_answer 3 "i-1" (start toy_fleet)).
  vm_compute. reflexivity.
Defined.

Lemma py_index_In {A} (l : list A) i x : py_index l i = Some x -> In x l.
Proof.
  unfold py_index.
  destruct ((0 <=? i) && (i <? Z.of_nat (length l)));
    [|destruct ((- Z.of_nat (length l) <=? i) && (i <? 0)); [|discriminate]];
    apply nth_error_In.
Qed.

Lemma py_index_mod {A} (l : list A) i :
  - Z.of_nat (length l) <= i < Z.of_nat (length l) ->
  py_index l i = nth_error l (Z.to_nat (i mod Z.of_nat (length l))).
Proof.
  intro Hi. unfold py_index. set (n := Z.of_nat (length l)) in *.
  destruct (Z.leb_spec 0 i); destruct (Z.ltb_spec i n); try lia; simpl.
  - rewrite Z.mod_small by lia. reflexivity.
  - destruct (Z.leb_spec (- n) i); destruct (Z.ltb_spec i 0); try lia; simpl.
    rewrite <- (Z_mod_plus_full i 1 n), Z.mod_small by lia.
    f_equal. f_equal. lia.
Qed.

Lemma pick_instance_loop_member {W} (answer : forall A : Type, W -> api A -> W * res A)
    fuel insts (s s' : @St W) x :
  pick_instance_loop answer fuel insts s = (s', ROk x) -> In x insts.
Proof.
  revert s. induction fuel as [|f IH]; intros s H; simpl in H; [discriminate H|].
  step_ok H as s1 u1 E1. step_ok H as s2 line E2.
  destruct (py_int line) as [i|]; [|exact (IH _ H)].
  destruct (py_index insts i) eqn:Ei; [|exact (IH _ H)].
  injection H as _ <-. exact (py_index_In _ _ _ Ei).
Qed.

(** Extra X8.  [pick_instance] only ever returns an instance of the
    environment's target group, as listed by
    [get_instances_for_environment]; in particular, with no instance it
    never returns (it keeps asking, or raises). *)
Theorem pick_instance_returns_listed
    {W} (answer : forall A : Type, W -> api A -> W * res A)
    fuel cfg (s s' : @St W) x :
  pick_instance answer fuel cfg s = (s', ROk x) ->
  exists s1 insts,
    get_instances_for_environment answer cfg s = (s1, ROk insts) /\ In x insts.
Proof.
  unfold pick_instance. intro H. step_ok H as s1 insts E1.
  exists s1, insts. split; [exact E1|].
  destruct insts as [|y [|z rest]].
  - exact (pick_instance_loop_member answer fuel [] s1 s' x H).
  - injection H as _ <-. left. reflexivity.
  - exact (pick_instance_loop_member answer fuel _ s1 s' x H).
Qed.

Lemma pick_instance_returns_listed_witness :
  snd (pick_instance console_answer 5 legacy (mkSt console_three [] [])) = ROk "i-3" /\
  exists s1 insts,
    get_instances_for_environment console_answer legacy (mkSt console_three [] [])
      = (s1, ROk insts) /\ In "i-3" insts.
Proof.
  split; [vm_compute; reflexivity|].
  apply (pick_instance_returns_listed console_answer 5 legacy (mkSt console_three [] [])
           (fst (pick_instance console_answer 5 legacy (mkSt console_three [] [])))).
  vm_compute. reflexivity.
Defined.

(** Extra X9.  At the prompt of [pick_instance], an answer that [int()]
    parses to [i] with [-n <= i < n] ([n] instances) selects the instance at
    position [i mod n]: a negative answer counts from the end of the list. *)
Theorem pick_instance_loop_selects_index
    {W} (answer : forall A : Type, W -> api A -> W * res A)
    f insts (s : @St W) w1 u w2 line i :
  answer unit (st_world s) (PrintInstances insts true) = (w1, ROk u) ->
  answer string w1 (Input "Which instance? ") = (w2, ROk line) ->
  py_int line = Some i ->
  - Z.of_nat (length insts) <= i < Z.of_nat (length insts) ->
  exists x,
    nth_error insts (Z.to_nat (i mod Z.of_nat (length insts))) = Some x
    /\ snd (pick_instance_loop answer (S f) insts s) = ROk x.
Proof.
  intros H1 H2 Hp Hi. simpl. unfold bind, call. rewrite H1. simpl. rewrite H2.
  simpl. rewrite Hp, (py_index_mod _ _ Hi).
  destruct (nth_error insts (Z.to_nat (i mod Z.of_nat (length insts)))) eqn:E.
  - exists s0. split; reflexivity.
  - apply nth_error_None in E.
    pose proof (Z.mod_pos_bound i (Z.of_nat (length insts))). lia.
Qed.

Lemma pick_instance_loop_selects_index_witness :
  exists x,
    nth_error ["i-1"; "i-2"; "i-3"] (Z.to_nat ((-1) mod 3)) = Some x
    /\ snd (pick_instance_loop console_answer 1 ["i-1"; "i-2"; "i-3"]
              (mkSt (mkConsole ["i-1"; "i-2"; "i-3"] [" -1 "]) [] [])) = ROk x.
Proof.
  apply (pick_instance_loop_selects_index console_answer 0 ["i-1"; "i-2"; "i-3"]
           (mkSt (mkConsole ["i-1"; "i-2"; "i-3"] [" -1 "]) [] [])
           (mkConsole ["i-1"; "i-2"; "i-3"] [" -1 "]) tt
           (mkConsole ["i-1"; "i-2"; "i-3"] []) " -1 " (-1));
    [reflexivity | reflexivity | vm_compute; reflexivity | simpl; lia].
Defined.

(** ** The calls a command may make *)

Lemma ext_calls_refl {W} p (s : @St W) : ext_calls p s s.
Proof. exists []. split; reflexivity. Qed.

Lemma ext_calls_trans {W} p (s1 s2 s3 : @St W) :
  ext_calls p s1 s2 -> ext_calls p s2 s3 -> ext_calls p s1 s3.
Proof.
  intros (m1 & T1 & F1) (m2 & T2 & F2). exists (m2 ++ m1)%list.
  rewrite T2, T1, app_assoc, forallb_app, F1, F2. split; reflexivity.
Qed.

Lemma ec_call {W} (answer : forall A : Type, W -> api A -> W * res A) p A (a : api A) :
  p A a = true -> Rel (ext_calls p) (call answer a).
Proof.
  intros Hp s s' r H. pose proof (trace_call answer A a s) as T. rewrite H in T.
  simpl in T. exists [Call a (snd (answer A (st_world s) a))]. split; [exact T|].
  simpl. rewrite Hp. reflexivity.
Qed.

Lemma ec_log {W} p l m : Rel (ext_calls p) (@log W l m).
Proof. intros s s' r H. injection H as <- _. exists [Log l m]. split; reflexivity. Qed.

Lemma ec_print {W} p m : Rel (ext_calls p) (@print W m).
Proof. intros s s' r H. injection H as <- _. exists [Print m]. split; reflexivity. Qed.

Lemma ec_put {W} p d : Rel (ext_calls p) (@put_groups W d).
Proof. intros s s' r H. injection H as <- _. exists []. split; reflexivity. Qed.

Lemma argv_eqb_refl a : argv_eqb a a = true.
Proof. induction a as [|x a IH]; simpl; [reflexivity|]. rewrite String.eqb_refl. exact IH. Qed.

Ltac ec_tac :=
  repeat match goal with
  | |- Rel _ (bind _ _) =>
      apply rel_bind; [exact (ext_calls_trans _) | | intro ]
  | |- Rel _ (ret _) => apply rel_ret, ext_calls_refl
  | |- Rel _ (raise _) => apply rel_raise, ext_calls_refl
  | |- Rel _ diverge => apply rel_diverge, ext_calls_refl
  | |- Rel _ get_groups => apply rel_get_groups, ext_calls_refl
  | |- Rel _ (log _ _) => apply ec_log
  | |- Rel _ (print _) => apply ec_print
  | |- Rel _ (put_groups _) => apply ec_put
  | |- Rel _ (call _ _) => apply ec_call; first [reflexivity | apply argv_eqb_refl]
  | |- Rel _ (if ?b then _ else _) => destruct b
  | |- Rel _ (match ?x with _ => _ end) => destruct x
  end.

Section PickCalls.
Context {W : Type}.
Variable answer : forall A : Type, W -> api A -> W * res A.
Variable p : forall A, api A -> bool.
Hypothesis p_pick : forall A (a : api A), pick_api a = true -> p A a = true.

Lemma ec_pick_instances cfg : Rel (ext_calls p) (pick_instances answer cfg).
Proof.
  unfold pick_instances, get_instances_for_environment.
  destruct (cfg_supports_blue_green cfg).
  - apply rel_try; [exact (ext_calls_trans _) | |].
    + apply rel_bind; [exact (ext_calls_trans _) | apply ec_call, p_pick; reflexivity | intro].
      apply rel_bind; [exact (ext_calls_trans _) | apply ec_call, p_pick; reflexivity | intro].
      apply ec_call, p_pick; reflexivity.
    + intros e h Hh. injection Hh as <-. apply rel_raise, ext_calls_refl.
  - apply rel_bind; [exact (ext_calls_trans _) | apply ec_call, p_pick; reflexivity | intro].
    apply ec_call, p_pick; reflexivity.
Qed.

Lemma ec_pick_instance fuel cfg : Rel (ext_calls p) (pick_instance answer fuel cfg).
Proof.
  unfold pick_instance.
  apply rel_bind; [exact (ext_calls_trans _) | apply ec_pick_instances | intro insts].
  assert (Hl : forall f, Rel (ext_calls p) (pick_instance_loop answer f insts)).
  { induction f as [|f IH]; simpl; [apply rel_diverge, ext_calls_refl|].
    apply rel_bind; [exact (ext_calls_trans _) | apply ec_call, p_pick; reflexivity | intro].
    apply rel_bind; [exact (ext_calls_trans _) | apply ec_call, p_pick; reflexivity
                    | intro line].
    destruct (py_int line) as [i|]; [destruct (py_index insts i)|];
      [apply rel_ret, ext_calls_refl | apply IH | apply IH]. }
  destruct insts as [|x [|y r]]; [apply Hl | apply rel_ret, ext_calls_refl | apply Hl].
Qed.

End PickCalls.

Lemma call_trace {W} (answer : forall A : Type, W -> api A -> W * res A) A (a : api A)
    (s s' : @St W) r :
  call answer a s = (s', r) -> st_trace s' = Call a r :: st_trace s.
Proof. unfold call. destruct (answer A (st_world s) a). intro H. injection H as <- <-. reflexivity. Qed.

(** ** The ledger of [instances_restart] and its reservations *)

Lemma reservations_app l1 l2 :
  reservations (l1 ++ l2)%list = (reservations l1 ++ reservations l2)%list.
Proof.
  induction l1 as [|e l IH]; simpl; [reflexivity|]. rewrite IH, app_assoc. reflexivity.
Qed.

Lemma dict_get_app g (d1 d2 : dict) :
  dict_get g (d1 ++ d2)%list = match dict_get g d1 with
                          | Some v => Some v
                          | None => dict_get g d2
                          end.
Proof.
  induction d1 as [|[k v] d IH]; simpl; [reflexivity|].
  destruct (String.eqb g k); [reflexivity | exact IH].
Qed.

Lemma reservation_of_other A (a : api A) r :
  reads_group a = false -> reservation_of (Call a r) = [].
Proof. destruct a; try discriminate; reflexivity. Qed.

Lemma call_groups {W} (answer : forall A : Type, W -> api A -> W * res A) A (a : api A)
    (s s' : @St W) r :
  call answer a s = (s', r) -> st_groups s' = st_groups s.
Proof. unfold call. destruct (answer A (st_world s) a). intro H. injection H as <- _. reflexivity. Qed.

Lemma nr_refl {W} (s : @St W) : no_reservation s s.
Proof. exists []. auto. Qed.

Lemma nr_trans {W} (s1 s2 s3 : @St W) :
  no_reservation s1 s2 -> no_reservation s2 s3 -> no_reservation s1 s3.
Proof.
  intros (m1 & T1 & R1 & G1) (m2 & T2 & R2 & G2). exists (m2 ++ m1)%list.
  rewrite T2, T1, app_assoc, reservations_app, R1, R2, G2, G1. auto.
Qed.

Lemma nr_rel_call {W} (answer : forall A : Type, W -> api A -> W * res A) A (a : api A) :
  reads_group a = false -> Rel no_reservation (call answer a).
Proof.
  intros Ha s s' r H. exists [Call a r]. split; [exact (call_trace answer A a s s' r H)|].
  split; [change ((reservation_of (Call a r) ++ [])%list = []);
          rewrite (reservation_of_other A a r Ha); reflexivity|].
  exact (call_groups answer A a s s' r H).
Qed.

Lemma nr_rel_log {W} l m : Rel no_reservation (@log W l m).
Proof. intros s s' r H. injection H as <- _. exists [Log l m]. auto. Qed.

Lemma nr_rel_print {W} m : Rel no_reservation (@print W m).
Proof. intros s s' r H. injection H as <- _. exists [Print m]. auto. Qed.

Lemma poll_not_group A (a : api A) : poll_api a = true -> reads_group a = false.
Proof. destruct a; try discriminate; reflexivity. Qed.

Lemma pick_not_group A (a : api A) : pick_api a = true -> reads_group a = false.
Proof. destruct a; try discriminate; reflexivity. Qed.

Ltac nr_frame_side :=
  first [ exact nr_refl | exact nr_trans
        | intros l0 m0 s0; exact (nr_rel_log l0 m0 s0 _ _ (surjective_pairing _))
        | intros m0 s0; exact (nr_rel_print m0 s0 _ _ (surjective_pairing _))
        | intros ? ? Hp; exact Hp
        | intros A a s Ha;
          exact (nr_rel_call _ A a (poll_not_group A a Ha) s _ _ (surjective_pairing _)) ].

Lemma nr_wait_for_healthok {W} (answer : forall A : Type, W -> api A -> W * res A) fuel inst :
  Rel (@no_reservation W) (wait_for_healthok answer fuel inst).
Proof.
  apply fr_wait_for_healthok with (allowed := fun A (a : api A) => poll_api a);
    nr_frame_side.
Qed.

Lemma nr_wait_for_elb_state {W} (answer : forall A : Type, W -> api A -> W * res A)
    fuel inst state :
  Rel (@no_reservation W) (wait_for_elb_state answer fuel inst state).
Proof.
  apply fr_wait_for_elb_state with (allowed := fun A (a : api A) => poll_api a);
    nr_frame_side.
Qed.

Ltac nr_tac :=
  repeat match goal with
  | |- Rel _ (bind _ _) => apply rel_bind; [exact nr_trans | | intro]
  | |- Rel _ (ret _) => apply rel_ret, nr_refl
  | |- Rel _ (raise _) => apply rel_raise, nr_refl
  | |- Rel _ diverge => apply rel_diverge, nr_refl
  | |- Rel _ get_groups => apply rel_get_groups, nr_refl
  | |- Rel _ (log _ _) => apply nr_rel_log
  | |- Rel _ (print _) => apply nr_rel_print
  | |- Rel _ (call _ _) => apply nr_rel_call; reflexivity
  | |- Rel _ (wait_for_healthok _ _ _) => apply nr_wait_for_healthok
  | |- Rel _ (wait_for_elb_state _ _ _ _) => apply nr_wait_for_elb_state
  | |- Rel _ (if ?b then _ else _) => destruct b
  end.

Lemma nr_restart_in_standby {W} (answer : forall A : Type, W -> api A -> W * res A) fuel g inst :
  Rel (@no_reservation W) (restart_in_standby answer fuel g inst).
Proof. unfold restart_in_standby. nr_tac. Qed.

Lemma nr_restore_groups {W} (answer : forall A : Type, W -> api A -> W * res A) items :
  Rel (@no_reservation W) (restore_groups answer items).
Proof. induction items as [|[g d] rest IH]; simpl; nr_tac. exact IH. Qed.

Lemma reservations_pick mid :
  forallb (ev_allowed (@pick_api)) mid = true -> reservations mid = [].
Proof.
  induction mid as [|e mid IH]; simpl; [reflexivity|]. intro Hf.
  apply andb_prop in Hf as [He Hf]. rewrite (IH Hf), app_nil_r.
  destruct e as [A a r| |]; try reflexivity.
  apply reservation_of_other, pick_not_group, He.
Qed.

Lemma nr_pick_instances {W} (answer : forall A : Type, W -> api A -> W * res A) cfg :
  Rel (@no_reservation W) (pick_instances answer cfg).
Proof.
  intros s s' r H.
  destruct (ec_pick_instances answer (@pick_api) (fun A a Ha => Ha) cfg s s' r H)
    as (mid & T & F).
  exists mid. split; [exact T|]. split; [exact (reservations_pick mid F)|].
  refine (rel_pick_instances answer (fun s s' => st_groups s' = st_groups s)
            _ _ _ cfg s s' r H).
  - reflexivity.
  - intros s1 s2 s3 G1 G2. rewrite G2. exact G1.
  - intros A a s0. apply groups_call.
Qed.

Lemma le_refl {W} (s : @St W) : ledger_ext s s.
Proof. exists []. split; [reflexivity | intro g; reflexivity]. Qed.

Lemma le_trans {W} (s1 s2 s3 : @St W) :
  ledger_ext s1 s2 -> ledger_ext s2 s3 -> ledger_ext s1 s3.
Proof.
  intros (n1 & T1 & G1) (n2 & T2 & G2). exists (n2 ++ n1)%list.
  split; [rewrite T2, T1, app_assoc; reflexivity|].
  intro g. rewrite G2, reservations_app, dict_get_app, G1.
  destruct (dict_get g (reservations n2)); reflexivity.
Qed.

Lemma le_of_nr {W} (s s' : @St W) : no_reservation s s' -> ledger_ext s s'.
Proof.
  intros (m & T & Rm & G). exists m. split; [exact T|].
  intro g. rewrite Rm, G. reflexivity.
Qed.

Lemma le_rel_of_nr {W A} (m : @M W A) : Rel no_reservation m -> Rel ledger_ext m.
Proof. intros Hm s s' r H. exact (le_of_nr _ _ (Hm _ _ _ H)). Qed.

Lemma reserve_step {W} l msg k v (s : @St W) :
  (log l msg;; mg <- get_groups;; put_groups (dict_set k v mg)) s
  = (mkSt (st_world s) (Log l msg :: st_trace s) (dict_set k v (st_groups s)), ROk tt).
Proof. reflexivity. Qed.

Lemma dict_get_set_single g k v d :
  dict_get g (dict_set k v d)
  = match dict_get g [(k, v)] with Some x => Some x | None => dict_get g d end.
Proof.
  simpl. destruct (String.eqb g k) eqn:E.
  - apply String.eqb_eq in E. subst. apply dict_get_set_same.
  - apply dict_get_set_other. intro Hg. subst. rewrite String.eqb_refl in E. discriminate.
Qed.

(** [protect_and_standby] is the only step of the loop that writes the
    ledger, and it writes what the [get_auto_scaling_group] answer it
    records asks for. *)
Lemma le_protect_and_standby {W} (answer : forall A : Type, W -> api A -> W * res A) g inst :
  Rel (@ledger_ext W) (protect_and_standby answer g inst).
Proof.
  unfold protect_and_standby.
  apply rel_bind; [exact le_trans | apply le_rel_of_nr, nr_rel_log | intros _].
  apply rel_bind; [exact le_trans | apply le_rel_of_nr, nr_rel_call; reflexivity | intros _].
  intros s s' r H.
  assert (N : forall b, Rel no_reservation
            (log Info "Putting %s into standby";; call answer (EnterStandby [inst] g b)))
    by (intro; nr_tac).
  apply bind_cases in H as [(s1 & ag & E1 & H) | [(e & E1 & _) | (E1 & _)]].
  2, 3: exists [Call (GetAutoscalingGroup g) (snd (call answer (GetAutoscalingGroup g) s))];
        rewrite E1; split; [exact (call_trace answer _ _ _ _ _ E1)|];
        intro k; simpl; rewrite (call_groups answer _ _ _ _ _ E1); reflexivity.
  apply call_ok in E1 as (_ & T1 & G1). cbv beta zeta in H.
  destruct (DesiredCapacity ag =? MinSize ag) eqn:Eq.
  - rewrite (bind_step _ _ _ _ _ (reserve_step _ _ _ _ _)) in H.
    destruct (N _ _ _ _ H) as (mid & T & Rm & G).
    exists (mid ++ [Log Info "Group '%s' needs to be adjusted to keep enough nodes";
                    Call (GetAutoscalingGroup g) (ROk ag)])%list.
    split; [rewrite T, <- app_assoc; simpl; rewrite T1; reflexivity|].
    intro k. rewrite G, reservations_app, Rm. simpl. rewrite Eq, G1.
    apply dict_get_set_single.
  - rewrite (bind_step _ _ s1 s1 tt eq_refl) in H.
    destruct (N _ _ _ _ H) as (mid & T & Rm & G).
    exists (mid ++ [Call (GetAutoscalingGroup g) (ROk ag)])%list.
    split; [rewrite T, <- app_assoc; simpl; rewrite T1; reflexivity|].
    intro k. rewrite G, reservations_app, Rm. simpl. rewrite Eq, G1. reflexivity.
Qed.

Lemma le_restart_one_instance {W} (answer : forall A : Type, W -> api A -> W * res A) fuel g inst :
  Rel (@ledger_ext W) (restart_one_instance answer fuel g inst).
Proof.
  unfold restart_one_instance.
  apply rel_bind; [exact le_trans | apply le_protect_and_standby | intros _].
  apply le_rel_of_nr, nr_restart_in_standby.
Qed.

Lemma le_restart_iteration {W} (answer : forall A : Type, W -> api A -> W * res A)
    fuel inst failed :
  Rel (@ledger_ext W) (restart_iteration answer fuel inst failed).
Proof.
  unfold restart_iteration.
  apply rel_bind; [exact le_trans | apply le_rel_of_nr, nr_rel_log | intros _].
  apply rel_bind; [exact le_trans | apply le_rel_of_nr, nr_rel_call; reflexivity
                  | intros [st|]]; cbv zeta.
  - destruct (negb _); [apply le_rel_of_nr; nr_tac|].
    apply rel_try; [exact le_trans | |].
    + apply rel_bind; [exact le_trans | apply le_restart_one_instance | intros _].
      apply rel_ret, le_refl.
    + intros e h Hh. destruct (is_runtime_error e); [|discriminate].
      injection Hh as <-. apply le_rel_of_nr. nr_tac.
  - apply le_rel_of_nr. nr_tac.
Qed.

Lemma le_restart_loop {W} (answer : forall A : Type, W -> api A -> W * res A) fuel insts failed :
  Rel (@ledger_ext W) (restart_loop answer fuel insts failed).
Proof.
  revert failed. induction insts as [|inst rest IH]; intro failed; simpl.
  - apply rel_ret, le_refl.
  - apply rel_bind; [exact le_trans | apply le_restart_iteration | intro; apply IH].
Qed.

(** When the restoration loop raises, the exception is the answer of its
    last [update_auto_scaling_group] call. *)
Lemma restore_groups_raise {W} (answer : forall A : Type, W -> api A -> W * res A)
    items (s s' : @St W) e :
  restore_groups answer items s = (s', RExn e) ->
  exists g n tr, st_trace s' = Call (UpdateDesiredCapacity g n) (RExn e) :: tr.
Proof.
  revert s. induction items as [|[g d] rest IH]; intros s H; simpl in H.
  - discriminate H.
  - apply bind_cases in H as [(s1 & u & E1 & H) | [(e1 & E1 & _) | (E1 & _)]];
      [| discriminate E1 | discriminate E1].
    apply bind_cases in H as [(s2 & u2 & E2 & H) | [(e2 & E2 & He) | (E2 & Hd)]].
    + exact (IH _ H).
    + injection He as ->. exists g, d, (st_trace s1).
      exact (call_trace answer _ _ _ _ _ E2).
    + discriminate Hd.
Qed.

(** Where an exception that ends [instances_restart] can come from: the
    clearing [set_update_message("")] call, made last; otherwise the
    message [motd] is set at most, and either no
    [update_auto_scaling_group] call was made or the exception is the
    answer of the last one. *)
Lemma instances_restart_exn_cases {W} (answer : forall A : Type, W -> api A -> W * res A)
    fuel cfg motd (s s' : @St W) e :
  instances_restart answer fuel cfg motd s = (s', RExn e) ->
  (exists tr, st_trace s' = Call (SetUpdateMessage "") (RExn e) :: tr)
  \/ ((update_messages (st_trace s') = update_messages (st_trace s)
       \/ update_messages (st_trace s') = motd :: update_messages (st_trace s))
      /\ (capacity_updates (st_trace s') = capacity_updates (st_trace s)
          \/ exists g n tr, st_trace s' = Call (UpdateDesiredCapacity g n) (RExn e) :: tr)).
Proof.
  intro H. unfold instances_restart in H.
  apply bind_cases in H as [(s1 & rel & E1 & H) | [(e1 & E1 & _) | (E1 & Hd)]];
    [| | discriminate Hd].
  2: { right. split; left;
       [ exact (call_feq update_messages answer _ _ _ _ _ E1 (fun _ _ => eq_refl))
       | exact (call_feq capacity_updates answer _ _ _ _ _ E1 (fun _ _ => eq_refl)) ]. }
  pose proof (call_feq update_messages answer _ _ _ _ _ E1 (fun _ _ => eq_refl)) as M1.
  pose proof (call_feq capacity_updates answer _ _ _ _ _ E1 (fun _ _ => eq_refl)) as C1.
  unfold feq in M1, C1.
  apply bind_cases in H as [(s2 & sure & E2 & H) | [(e2 & E2 & _) | (E2 & Hd)]];
    [| | discriminate Hd].
  2: { right. split; left;
       [ rewrite <- M1; exact (call_feq update_messages answer _ _ _ _ _ E2 (fun _ _ => eq_refl))
       | rewrite <- C1; exact (call_feq capacity_updates answer _ _ _ _ _ E2 (fun _ _ => eq_refl)) ]. }
  pose proof (call_feq update_messages answer _ _ _ _ _ E2 (fun _ _ => eq_refl)) as M2.
  pose proof (call_feq capacity_updates answer _ _ _ _ _ E2 (fun _ _ => eq_refl)) as C2.
  unfold feq in M2, C2. rewrite M1 in M2. rewrite C1 in C2. clear M1 C1.
  destruct (negb sure); [discriminate H|].
  apply bind_cases in H as [(s3 & u3 & E3 & H) | [(e3 & E3 & _) | (E3 & Hd)]];
    [| | discriminate Hd].
  2: { apply call_trace in E3. right. rewrite E3. simpl. rewrite M2, C2. auto. }
  apply call_trace in E3.
  assert (M3 : update_messages (st_trace s3) = motd :: update_messages (st_trace s))
    by (rewrite E3; simpl; rewrite M2; reflexivity).
  assert (C3 : capacity_updates (st_trace s3) = capacity_updates (st_trace s))
    by (rewrite E3; simpl; exact C2).
  clear E3 M2 C2.
  apply bind_cases in H as [(s4 & u4 & E4 & H) | [(e4 & E4 & _) | (E4 & Hd)]];
    [| discriminate E4 | discriminate E4].
  injection E4 as <- _.
  apply bind_cases in H as [(s5 & insts & E5 & H) | [(e5 & E5 & _) | (E5 & Hd)]];
    [| | discriminate Hd].
  2: { pose proof (motd_rel_pick_instances answer cfg _ _ _ E5) as P.
       pose proof (cap_rel_pick_instances answer cfg _ _ _ E5) as Q.
       unfold feq in P, Q. simpl in P, Q. right. split; [right | left]; congruence. }
  pose proof (motd_rel_pick_instances answer cfg _ _ _ E5) as M5.
  pose proof (cap_rel_pick_instances answer cfg _ _ _ E5) as C5.
  unfold feq in M5, C5. simpl in M5, C5. rewrite M3 in M5. rewrite C3 in C5.
  clear M3 C3 E5.
  apply bind_cases in H as [(s6 & failed & E6 & H) | [(e6 & E6 & _) | (E6 & Hd)]];
    [| | discriminate Hd].
  2: { pose proof (motd_rel_restart_loop answer fuel insts false _ _ _ E6) as P.
       pose proof (cap_rel_restart_loop answer fuel insts false _ _ _ E6) as Q.
       unfold feq in P, Q. right. split; [right | left]; congruence. }
  pose proof (motd_rel_restart_loop answer fuel insts false _ _ _ E6) as M6.
  unfold feq in M6. rewrite M5 in M6. clear E6 M5 C5.
  apply bind_cases in H as [(s7 & mg & E7 & H) | [(e7 & E7 & _) | (E7 & Hd)]];
    [| discriminate E7 | discriminate E7].
  injection E7 as <- _.
  apply bind_cases in H as [(s8 & u8 & E8 & H) | [(e8 & E8 & He) | (E8 & Hd)]];
    [| | discriminate Hd].
  2: { injection He as ->.
       pose proof (motd_rel_restore_groups answer _ _ _ _ E8) as P. unfold feq in P.
       right. split; [right; congruence | right; exact (restore_groups_raise answer _ _ _ _ E8)]. }
  apply bind_cases in H as [(s9 & u9 & E9 & H) | [(e9 & E9 & He) | (E9 & Hd)]];
    [| | discriminate Hd].
  2: { injection He as ->. left. exists (st_trace s8). exact (call_trace answer _ _ _ _ _ E9). }
  apply bind_cases in H as [(s10 & u10 & E10 & H) | [(e10 & E10 & _) | (E10 & Hd)]];
    [| discriminate E10 | discriminate E10].
  discriminate H.
Qed.

(** The banner messages set form a prefix of [motd; ""], all of it when
    the command reaches [sys.exit]. *)
Lemma instances_restart_motd_prefix
    {W} (answer : forall A : Type, W -> api A -> W * res A)
    fuel cfg motd (s s' : @St W) r :
  instances_restart answer fuel cfg motd s = (s', r) ->
  exists p,
    update_messages (st_trace s') = (p ++ update_messages (st_trace s))%list
    /\ (exists q, [motd; ""] = (rev p ++ q)%list)
    /\ (forall c, r = ROk (Some c) -> rev p = [motd; ""]).
Proof.
  intro H. unfold instances_restart in H.
  apply bind_cases in H as [(s1 & rel & E1 & H) | [(e & E1 & ->) | (E1 & ->)]].
  2, 3: exists []; split; [apply (call_feq update_messages answer _ _ _ _ _ E1);
                            intros; reflexivity
                          | split; [exists [motd; ""]; reflexivity
                                   | intros c Hc; discriminate]].
  apply (call_feq update_messages answer _ _ _ _ _) in E1; [|intros; reflexivity].
  apply bind_cases in H as [(s2 & sure & E2 & H) | [(e & E2 & ->) | (E2 & ->)]].
  2, 3: exists []; apply (call_feq update_messages answer _ _ _ _ _) in E2;
        [|intros; reflexivity];
        split; [unfold feq in *; simpl; congruence
               | split; [exists [motd; ""]; reflexivity
                        | intros c Hc; discriminate]].
  apply (call_feq update_messages answer _ _ _ _ _) in E2; [|intros; reflexivity].
  unfold feq in E1, E2. rewrite <- E1, <- E2.
  destruct (negb sure).
  - injection H as <- <-. exists []. split; [reflexivity|].
    split; [exists [motd; ""]; reflexivity | intros c Hc; discriminate].
  - match type of H with ?m _ = _ =>
      assert (Hs : Seq update_messages [motd; ""] m) end.
    { seq_tac (fun A (a : api A) => negb (is_motd_update a))
              ltac:(apply update_messages_other).
      all: try apply seq_frame.
      all: first [ apply motd_rel_pick_instances | apply motd_rel_restart_loop
                 | apply motd_rel_restore_groups | reflexivity ]. }
    destruct (Hs _ _ _ H) as (p & F & P & C). exists p.
    split; [exact F|]. split; [exact P|]. intros c Hc. exact (C _ Hc).
Qed.


(** Extra X3.  The banner calls of [instances_restart] set the message of
    the day [motd] and then clear it: on any run the messages set form a
    prefix of [motd; ""], and both are set when the command reaches
    [sys.exit].  A run that raises has set [motd] at most, leaving it in
    place, unless the exception is the answer of the clearing
    [set_update_message("")] call itself, made last. *)
Theorem instances_restart_motd_set_then_cleared
    {W} (answer : forall A : Type, W -> api A -> W * res A)
    fuel cfg motd (s s' : @St W) r :
  instances_restart answer fuel cfg motd s = (s', r) ->
  exists p,
    update_messages (st_trace s') = (p ++ update_messages (st_trace s))%list
    /\ (exists q, [motd; ""] = (rev p ++ q)%list)
    /\ (forall c, r = ROk (Some c) -> rev p = [motd; ""])
    /\ (forall e, r = RExn e ->
        (exists q, [motd] = (rev p ++ q)%list)
        \/ exists tr, st_trace s' = Call (SetUpdateMessage "") (RExn e) :: tr).
Proof.
  intro H. destruct (instances_restart_motd_prefix answer fuel cfg motd s s' r H)
    as (p & F & P & C).
  exists p. split; [exact F|]. split; [exact P|]. split; [exact C|].
  intros e ->.
  destruct (instances_restart_exn_cases answer fuel cfg motd s s' e H)
    as [Hl | (Hm & _)]; [right; exact Hl | left].
  rewrite F in Hm. destruct Hm as [Hm | Hm].
  - destruct p as [|x p]; [exists [motd]; reflexivity|].
    apply (f_equal (@length string)) in Hm. simpl in Hm. rewrite length_app in Hm. lia.
  - destruct p as [|x [|y p]].
    + exists [motd]. reflexivity.
    + injection Hm as ->. exists []. reflexivity.
    + apply (f_equal (@length string)) in Hm. simpl in Hm. rewrite length_app in Hm. lia.
Qed.

(** On [toy_restart_fails] the restart raises in the loop: the message of
    the day is set and never cleared. *)
Lemma instances_restart_motd_set_then_cleared_witness :
  update_messages (st_trace (fst (instances_restart toy_answer 5 blue_green "m"
                                   (start toy_restart_fails)))) = ["m"] /\
  snd (instances_restart toy_answer 5 blue_green "m" (start toy_restart_fails))
    = RExn (CalledProcessError restart_cmd) /\
  exists p,
    update_messages (st_trace (fst (instances_restart toy_answer 5 blue_green "m"
                                     (start toy_restart_fails))))
      = (p ++ update_messages (st_trace (start toy_restart_fails)))%list
    /\ ((exists q, ["m"] = (rev p ++ q)%list)
        \/ exists tr, st_trace (fst (instances_restart toy_answer 5 blue_green "m"
                                       (start toy_restart_fails)))
                      = Call (SetUpdateMessage "") (RExn (CalledProcessError restart_cmd)) :: tr).
Proof.
  assert (Hr : snd (instances_restart toy_answer 5 blue_green "m" (start toy_restart_fails))
               = RExn (CalledProcessError restart_cmd)) by (vm_compute; reflexivity).
  split; [vm_compute; reflexivity|]. split; [exact Hr|].
  destruct (instances_restart_motd_set_then_cleared toy_answer 5 blue_green "m"
              (start toy_restart_fails) _ _ (surjective_pairing _))
    as (p & F & _ & _ & Hx).
  exists p. split; [exact F | exact (Hx _ Hr)].
Defined.

(** ** C2: restoring the recorded capacities after the loop *)

(** Claim C2 (as the code has it).  (a) Whenever [instances_restart]
    reaches its final [sys.exit(c)] (every candidate was processed, each
    restart succeeding or failing with a caught [RuntimeError]; [c] may be
    1), each entry of [modified_groups] is the desired capacity that the
    run observed at the group's latest reservation, and, when the cloud's
    [update_auto_scaling_group] sets the named group's desired capacity
    while [set_update_message] leaves capacities alone, every recorded
    group ends with that desired capacity.  (b) When the run raises, no
    [update_auto_scaling_group] call was made, unless the exception is the
    answer of the last of them or of the final [set_update_message("")]:
    an exception escaping the restart loop (which, by C4, is not a
    [RuntimeError]) skips the restoration entirely. *)
Theorem instances_restart_restores_recorded
    {W} (answer : forall A : Type, W -> api A -> W * res A)
    (desired : W -> string -> Z)
    (Hupd : forall w g n w',
        answer unit w (UpdateDesiredCapacity g n) = (w', ROk tt) ->
        desired w' g = n /\ forall g', g' <> g -> desired w' g' = desired w g')
    (Hmsg : forall w m w' r,
        answer unit w (SetUpdateMessage m) = (w', r) ->
        forall g, desired w' g = desired w g)
    fuel cfg motd (s s' : @St W) r :
  instances_restart answer fuel cfg motd s = (s', r) ->
  (forall c, r = ROk (Some c) ->
   exists new, st_trace s' = (new ++ st_trace s)%list
     /\ (forall g, dict_get g (st_groups s') = dict_get g (reservations new))
     /\ (forall g d, dict_get g (st_groups s') = Some d -> desired (st_world s') g = d))
  /\ (forall e, r = RExn e ->
      capacity_updates (st_trace s') = capacity_updates (st_trace s)
      \/ (exists g n tr, st_trace s' = Call (UpdateDesiredCapacity g n) (RExn e) :: tr)
      \/ (exists tr, st_trace s' = Call (SetUpdateMessage "") (RExn e) :: tr)).
Proof.
  intro H. split.
  2: { intros e ->.
       destruct (instances_restart_exn_cases answer fuel cfg motd s s' e H)
         as [Hc | (_ & [Hc | Hc])]; auto. }
  intros c ->. unfold instances_restart in H.
  step_ok H as s1 rel E1. step_ok H as s2 sure E2.
  destruct (negb sure); [discriminate|].
  step_ok H as s3 u3 E3. step_ok H as s4 u4 E4.
  step_ok H as s5 insts E5. step_ok H as s6 failed E6.
  step_ok H as s7 mg E7. step_ok H as s8 u8 E8.
  step_ok H as s9 u9 E9. step_ok H as s10 u10 E10.
  injection H as <- _.
  injection E4 as <- _. injection E7 as <- <-.
  assert (Pre : exists pre, st_trace s3 = (pre ++ st_trace s)%list /\ reservations pre = []).
  { rewrite (call_trace answer _ _ _ _ _ E3), (call_trace answer _ _ _ _ _ E2),
      (call_trace answer _ _ _ _ _ E1).
    eexists [_; _; _]. split; reflexivity. }
  destruct Pre as (pre & Tpre & Rpre).
  assert (L : ledger_ext (mkSt (st_world s3) (st_trace s3) []) s10).
  { eapply le_trans; [exact (le_of_nr _ _ (nr_pick_instances answer cfg _ _ _ E5))|].
    eapply le_trans; [exact (le_restart_loop answer fuel insts false _ _ _ E6)|].
    apply le_of_nr.
    eapply nr_trans; [exact (nr_restore_groups answer _ _ _ _ E8)|].
    eapply nr_trans; [exact (nr_rel_call answer _ (SetUpdateMessage "") eq_refl _ _ _ E9)|].
    exact (nr_rel_print _ _ _ _ E10). }
  destruct L as (new & Tnew & Gnew). exists (new ++ pre)%list.
  split; [rewrite Tnew; simpl; rewrite Tpre, app_assoc; reflexivity|].
  split.
  { intro g. rewrite Gnew, reservations_app, Rpre, app_nil_r. simpl.
    destruct (dict_get g (reservations new)); reflexivity. }
  intros g d Hget.
  apply emit_ok in E10 as (Hw10 & _ & Hg10).
  destruct u9. apply call_ok in E9 as (Ha9 & _ & Hg9).
  pose proof (Hmsg _ _ _ _ Ha9) as Hframe.
  assert (Hnd : keys_nodup (st_groups s6)).
  { eapply restart_loop_keys_nodup; [exact E6|].
    eapply pick_instances_keys_nodup; [exact E5|]. simpl. constructor. }
  destruct u8.
  destruct (restore_groups_spec answer desired Hupd _ _ _ Hnd E8)
    as (Hin & _ & Hg8).
  rewrite Hg10, Hg9, Hg8 in Hget. rewrite Hw10, Hframe.
  apply Hin. apply dict_get_in. exact Hget.
Qed.

(** A run where both instances fail with [RuntimeError] (their compute
    state is no longer [running]): the exit code is 1, the ledger holds
    [asg-1] at 2, the value of its latest reservation, and [asg-1] is back
    at that desired capacity. *)
Lemma instances_restart_restores_recorded_witness :
  snd (instances_restart toy_answer 5 blue_green "m" (start toy_stopped))
    = ROk (Some 1) /\
  dict_get "asg-1" (st_groups (fst (instances_restart toy_answer 5 blue_green "m"
                                      (start toy_stopped)))) = Some 2 /\
  toy_desired (st_world (fst (instances_restart toy_answer 5 blue_green "m"
                                (start toy_stopped)))) "asg-1" = 2.
Proof.
  assert (Hr : snd (instances_restart toy_answer 5 blue_green "m" (start toy_stopped))
               = ROk (Some 1)) by (vm_compute; reflexivity).
  destruct (proj1 (instances_restart_restores_recorded toy_answer toy_desired
                     toy_update_sets toy_message_frame 5 blue_green "m" (start toy_stopped)
                     _ _ (surjective_pairing _)) 1 Hr) as (new & _ & Hl & Hd).
  split; [exact Hr|]. split; [vm_compute; reflexivity|].
  apply Hd. vm_compute. reflexivity.
Defined.

(** Claim C2 fails on two counts.  (a) When the remote restart command of
    [i-1] fails with [CalledProcessError], the exception escapes the loop:
    [i-2] is never looked at and no [update_auto_scaling_group] call is
    made although [asg-1] is recorded.  (b) When an external change brings
    [asg-1] to desired = min = 3 before [i-2] is processed, the second
    reservation overwrites the first: the ledger, and [asg-1]'s final
    desired capacity, is 3, not the 2 observed at the first reservation. *)
Lemma instances_restart_restoration_skipped_or_later_value :
  (let (s, r) := instances_restart toy_answer 5 blue_green "m"
                   (start toy_restart_fails) in
   r = RExn (CalledProcessError restart_cmd) /\
   described (st_trace s) = ["i-1"] /\
   st_groups s = [("asg-1", 2)] /\
   capacity_updates (st_trace s) = [])
  /\
  (st_groups (fst (restart_loop toy_answer 5 ["i-1"] false
                     (start toy_rescaled))) = [("asg-1", 2)] /\
   let (s, r) := instances_restart toy_answer 5 blue_green "m"
                   (start toy_rescaled) in
   r = ROk (Some 0) /\ st_groups s = [("asg-1", 3)] /\
   toy_desired (st_world s) "asg-1" = 3).
Proof. vm_compute. repeat split. Qed.


(** Extra X10.  [instances_restart_one] never calls
    [update_auto_scaling_group], whatever happens: the desired capacities
    recorded in its [modified_groups] are never put back. *)
Theorem instances_restart_one_no_capacity_update
    {W} (answer : forall A : Type, W -> api A -> W * res A)
    fuel cfg (s s' : @St W) r :
  instances_restart_one answer fuel cfg s = (s', r) ->
  capacity_updates (st_trace s') = capacity_updates (st_trace s).
Proof.
  revert s s' r. fold (Rel (feq capacity_updates) (instances_restart_one answer fuel cfg)).
  unfold instances_restart_one.
  apply rel_bind; [exact (feq_trans _) | apply cap_rel_pick_instance | intro inst].
  apply rel_bind; [exact (feq_trans _) | | intros [st|]].
  - apply ff_call with (allowed := fun A (a : api A) => negb (is_capacity_update a));
      first [ intros; apply capacity_updates_other; assumption | intros; reflexivity ].
  - apply rel_bind; [exact (feq_trans _) | | intro].
    + intros s s' r H. injection H as <- _. reflexivity.
    + apply rel_try; [exact (feq_trans _) | apply cap_rel_restart_one_instance |].
      intros e h Hh. destruct (is_runtime_error e); [|discriminate].
      injection Hh as <-. apply ff_atom_log. intros; reflexivity.
  - apply ff_atom_log. intros; reflexivity.
Qed.

(** On [toy_fleet], [asg-1] is at its minimum: the adjustment is recorded
    but not restored, and the group ends one above its former desired
    capacity. *)
Lemma instances_restart_one_no_capacity_update_witness :
  toy_desired (st_world (fst (instances_restart_one toy_answer 5 blue_green
                                (start toy_fleet)))) "asg-1" = 3 /\
  st_groups (fst (instances_restart_one toy_answer 5 blue_green (start toy_fleet)))
    = [("asg-1", 2)] /\
  capacity_updates (st_trace (fst (instances_restart_one toy_answer 5 blue_green
                                     (start toy_fleet))))
    = capacity_updates (st_trace (start toy_fleet)).
Proof.
  split; [vm_compute; reflexivity|]. split; [vm_compute; reflexivity|].
  exact (instances_restart_one_no_capacity_update toy_answer 5 blue_green
           (start toy_fleet) _ _ (surjective_pairing _)).
Defined.

(** Extra X11.  [instances_exec_all] first asks for confirmation, showing
    the shell-quoted command; unless the answer is [True] it makes no other
    call.  After a yes it only lists the instances and runs exactly the
    given command (not its quoted form) on them. *)
Theorem instances_exec_all_after_confirmation
    {W} (answer : forall A : Type, W -> api A -> W * res A)
    cfg cmd (s s' : @St W) r :
  instances_exec_all answer cfg cmd s = (s', r) ->
  exists r0 mid,
    st_trace s' = (mid ++ Call (AreYouSure ("exec command " ++ shlex_join cmd
                                           ++ " in all instances")) r0
                   :: st_trace s)%list
    /\ (r0 <> ROk true -> mid = [])
    /\ forallb (ev_allowed (@exec_all_api cmd)) mid = true.
Proof.
  unfold instances_exec_all. intro H.
  apply bind_cases in H as [(s1 & sure & E1 & H) | [(e & E1 & ->) | (E1 & ->)]].
  - apply call_ok in E1 as (_ & T1 & _). exists (ROk sure).
    destruct (negb sure) eqn:Hs.
    + injection H as <- _. exists []. rewrite T1. auto.
    + apply negb_false_iff in Hs. subst sure.
      assert (Hr : Rel (ext_calls (@exec_all_api cmd))
                     (print ("Running '" ++ shlex_join cmd ++ "' on all instances");;
                      insts <- pick_instances answer cfg;;
                      call answer (ExecRemoteAll insts cmd))).
      { apply rel_bind; [exact (ext_calls_trans _) | apply ec_print | intro].
        apply rel_bind; [exact (ext_calls_trans _) | | intro insts].
        - apply ec_pick_instances. intros B b Hb. destruct b; try discriminate Hb; reflexivity.
        - apply ec_call. apply argv_eqb_refl. }
      destruct (Hr _ _ _ H) as (mid & T & F). exists mid. rewrite T, T1.
      split; [reflexivity|]. split; [intro C; congruence | exact F].
  - apply call_trace in E1. exists (RExn e), []. auto.
  - apply call_trace in E1. exists RDiverge, []. auto.
Qed.

Lemma instances_exec_all_after_confirmation_witness :
  st_trace (fst (instances_exec_all declining_answer blue_green ["uptime"; "-p"]
                   (start toy_fleet)))
    = [Call (AreYouSure "exec command uptime -p in all instances") (ROk false)] /\
  exists r0 mid,
    st_trace (fst (instances_exec_all declining_answer blue_green ["uptime"; "-p"]
                     (start toy_fleet)))
      = (mid ++ Call (AreYouSure ("exec command " ++ shlex_join ["uptime"; "-p"]
                                 ++ " in all instances")) r0
         :: st_trace (start toy_fleet))%list
    /\ (r0 <> ROk true -> mid = [])
    /\ forallb (ev_allowed (@exec_all_api ["uptime"; "-p"])) mid = true.
Proof.
  split; [vm_compute; reflexivity|].
  exact (instances_exec_all_after_confirmation declining_answer blue_green ["uptime"; "-p"]
           (start toy_fleet) _ _ (surjective_pairing _)).
Defined.

(** Extra X12.  [instances_start] asks for no confirmation, in any
    environment: it reads the current release, lists the instances and
    runs the start command on them, and makes no other call. *)
Theorem instances_start_calls
    {W} (answer : forall A : Type, W -> api A -> W * res A)
    cfg (s s' : @St W) r :
  instances_start answer cfg s = (s', r) ->
  exists mid, st_trace s' = (mid ++ st_trace s)%list
              /\ forallb (ev_allowed (@start_api)) mid = true.
Proof.
  revert s s' r. fold (Rel (ext_calls (@start_api)) (instances_start answer cfg)).
  unfold instances_start.
  apply rel_bind; [exact (ext_calls_trans _) | apply ec_call; reflexivity | intro].
  apply rel_bind; [exact (ext_calls_trans _) | apply ec_print | intro].
  apply rel_bind; [exact (ext_calls_trans _) | | intro insts].
  - apply ec_pick_instances. intros B b Hb. destruct b; try discriminate Hb; reflexivity.
  - apply ec_call; reflexivity.
Qed.

Lemma instances_start_calls_witness :
  st_trace (fst (instances_start toy_answer prod_cfg (start toy_fleet)))
    = [Call (ExecRemoteAll ["i-1"; "i-2"] start_cmd) (ROk tt);
       Call (ElbInstances "tg") (ROk ["i-1"; "i-2"]);
       Call TargetGroupArnFor (ROk "tg");
       Print "Starting version %s v1";
       Call DescribeCurrentRelease (ROk "v1")] /\
  exists mid,
    st_trace (fst (instances_start toy_answer prod_cfg (start toy_fleet)))
      = (mid ++ st_trace (start toy_fleet))%list
    /\ forallb (ev_allowed (@start_api)) mid = true.
Proof.
  split; [vm_compute; reflexivity|].
  exact (instances_start_calls toy_answer prod_cfg (start toy_fleet) _ _
           (surjective_pairing _)).
Defined.

(** Extra X13.  [instances_status] only reads: the target groups, the
    active colour, the instance lists and whether it runs on the admin
    node; it changes nothing.  In a blue-green environment it never raises:
    any exception becomes an error line on the console. *)
Theorem instances_status_read_only
    {W} (answer : forall A : Type, W -> api A -> W * res A)
    env_value exn_str cfg (s s' : @St W) r :
  instances_status answer env_value exn_str cfg s = (s', r) ->
  (exists mid, st_trace s' = (mid ++ st_trace s)%list
               /\ forallb (ev_allowed (@status_api)) mid = true)
  /\ (cfg_supports_blue_green cfg = true -> forall e, r <> RExn e).
Proof.
  intro H. split.
  - enough (Hr : Rel (ext_calls (@status_api))
                      (instances_status answer env_value exn_str cfg))
      by exact (Hr _ _ _ H).
    unfold instances_status, print_color.
    destruct (cfg_supports_blue_green cfg).
    + apply rel_try; [exact (ext_calls_trans _) | ec_tac |].
      intros e h Hh. injection Hh as <-. apply ec_print.
    + ec_tac.
  - intros Hbg e. unfold instances_status in H. rewrite Hbg in H.
    unfold try_except in H.
    lazymatch type of H with
    | context [match ?x with pair _ _ => _ end] => destruct x as [s1 [a|e1|]]
    end; injection H as _ <-; discriminate.
Qed.

Lemma instances_status_read_only_witness :
  st_trace (fst (instances_status failing_answer (fun _ => "staging")
                   (fun _ => "boom") blue_green (mkSt tt [] [])))
    = [Print "Error: Failed to get blue-green status for staging: boom";
       Call (GetTargetGroupArn "blue") (RExn (ClientError "DescribeLoadBalancers"))] /\
  (exists mid,
     st_trace (fst (instances_status failing_answer (fun _ => "staging")
                      (fun _ => "boom") blue_green (mkSt tt [] [])))
       = (mid ++ st_trace (mkSt tt [] []))%list
     /\ forallb (ev_allowed (@status_api)) mid = true)
  /\ (cfg_supports_blue_green blue_green = true ->
      forall e, snd (instances_status failing_answer (fun _ => "staging")
                       (fun _ => "boom") blue_green (mkSt tt [] [])) <> RExn e).
Proof.
  split; [vm_compute; reflexivity|].
  exact (instances_status_read_only failing_answer (fun _ => "staging") (fun _ => "boom")
           blue_green (mkSt tt [] []) _ _ (surjective_pairing _)).
Defined.

(** Extra X15.  [instances_login] only lists the instances, asks which one
    to use and opens a remote shell; when it returns, that shell was opened
    on an instance of the environment's target group. *)
Theorem instances_login_shell_on_listed
    {W} (answer : forall A : Type, W -> api A -> W * res A)
    fuel cfg (s s' : @St W) r :
  instances_login answer fuel cfg s = (s', r) ->
  (exists mid, st_trace s' = (mid ++ st_trace s)%list
               /\ forallb (ev_allowed (@login_api)) mid = true)
  /\ (r = ROk tt ->
      exists x s1 insts tr,
        get_instances_for_environment answer cfg s = (s1, ROk insts) /\ In x insts
        /\ st_trace s' = Call (RunRemoteShell x) (ROk tt) :: tr).
Proof.
  intro H. split.
  - enough (Hr : Rel (ext_calls (@login_api)) (instances_login answer fuel cfg))
      by exact (Hr _ _ _ H).
    unfold instances_login.
    apply rel_bind; [exact (ext_calls_trans _) | | intro; apply ec_call; reflexivity].
    apply ec_pick_instance. intros B b Hb. destruct b; try discriminate Hb; reflexivity.
  - intros ->. unfold instances_login in H. step_ok H as s1 x E1.
    apply call_trace in H. unfold pick_instance in E1. step_ok E1 as s2 insts E2.
    exists x, s2, insts, (st_trace s1). split; [exact E2|]. split; [|exact H].
    destruct insts as [|y [|z rest]].
    + exact (pick_instance_loop_member answer fuel [] s2 s1 x E1).
    + injection E1 as _ <-. left. reflexivity.
    + exact (pick_instance_loop_member answer fuel _ s2 s1 x E1).
Qed.

Lemma instances_login_shell_on_listed_witness :
  snd (instances_login console_answer 5 legacy (mkSt console_three [] [])) = ROk tt /\
  (exists mid,
     st_trace (fst (instances_login console_answer 5 legacy (mkSt console_three [] [])))
       = (mid ++ st_trace (mkSt console_three [] []))%list
     /\ forallb (ev_allowed (@login_api)) mid = true)
  /\ (snd (instances_login console_answer 5 legacy (mkSt console_three [] [])) = ROk tt ->
      exists x s1 insts tr,
        get_instances_for_environment console_answer legacy (mkSt console_three [] [])
          = (s1, ROk insts) /\ In x insts
        /\ st_trace (fst (instances_login console_answer 5 legacy
                            (mkSt console_three [] [])))
             = Call (RunRemoteShell x) (ROk tt) :: tr).
Proof.
  split; [vm_compute; reflexivity|].
  exact (instances_login_shell_on_listed console_answer 5 legacy (mkSt console_three [] [])
           _ _ (surjective_pairing _)).
Defined.

Lemma string_app_nil_r (s : string) : (s ++ "")%string = s.
Proof. induction s as [|c r IH]; simpl; [reflexivity | rewrite IH; reflexivity]. Qed.

Lemma string_app_assoc (a b c : string) : ((a ++ b) ++ c)%string = (a ++ (b ++ c))%string.
Proof. induction a as [|x r IH]; simpl; [reflexivity | rewrite IH; reflexivity]. Qed.

Lemma push_word_push a b ws :
  push_word a (push_word b ws) = push_word (a ++ b) ws.
Proof. destruct ws; simpl; rewrite ?string_app_assoc; reflexivity. Qed.

Lemma option_map_push a b (o : option (list string)) :
  option_map (push_word a) (option_map (push_word b) o) = option_map (push_word (a ++ b)) o.
Proof. destruct o; simpl; [rewrite push_word_push|]; reflexivity. Qed.

Lemma posix_words_nonempty m s ws : posix_words m s = Some ws -> ws <> [].
Proof.
  revert m ws. induction s as [|c r IH]; intros m ws H.
  - destruct m; simpl in H; try discriminate H. injection H as <-. discriminate.
  - destruct m; simpl in H;
      repeat match type of H with context [if ?b then _ else _] => destruct b end;
      try discriminate H; try exact (IH _ _ H);
      (destruct (posix_words _ r) as [l|]; simpl in H; [|discriminate H]);
      injection H as <-; destruct l; discriminate.
Qed.

Lemma option_map_push_empty m t :
  option_map (push_word "") (posix_words m t) = posix_words m t.
Proof.
  destruct (posix_words m t) as [ws|] eqn:E; [|reflexivity].
  apply posix_words_nonempty in E. destruct ws; [congruence | reflexivity].
Qed.

Lemma shlex_safe_not_special c :
  shlex_safe c = true ->
  Ascii.eqb c " "%char = false /\ Ascii.eqb c squote = false /\ Ascii.eqb c dquote = false.
Proof.
  intro Hs.
  destruct (Ascii.eqb c " "%char) eqn:E1;
    [apply Ascii.eqb_eq in E1; subst; discriminate Hs|].
  destruct (Ascii.eqb c squote) eqn:E2;
    [apply Ascii.eqb_eq in E2; subst; discriminate Hs|].
  destruct (Ascii.eqb c dquote) eqn:E3;
    [apply Ascii.eqb_eq in E3; subst; discriminate Hs|].
  auto.
Qed.

Lemma posix_words_safe s t :
  all_safe s = true ->
  posix_words Unquoted (s ++ t) = option_map (push_word s) (posix_words Unquoted t).
Proof.
  induction s as [|c r IH]; intro Hs; simpl.
  - symmetry. apply option_map_push_empty.
  - simpl in Hs. apply andb_true_iff in Hs as [Hc Hr].
    destruct (shlex_safe_not_special c Hc) as (-> & -> & ->). rewrite Hc, (IH Hr).
    apply option_map_push.
Qed.

Lemma posix_words_single s t :
  posix_words InSingle (escape_squotes s ++ String squote t)
  = option_map (push_word s) (posix_words Unquoted t).
Proof.
  induction s as [|c r IH]; simpl.
  - try rewrite Ascii.eqb_refl. symmetry. apply option_map_push_empty.
  - destruct (Ascii.eqb c squote) eqn:E.
    + apply Ascii.eqb_eq in E. subst c. cbn. rewrite IH, option_map_push. reflexivity.
    + simpl. rewrite E, IH, option_map_push. reflexivity.
Qed.

Lemma posix_words_quote a t :
  posix_words Unquoted (shlex_quote a ++ t) = option_map (push_word a) (posix_words Unquoted t).
Proof.
  destruct a as [|c r].
  - cbn. symmetry. apply option_map_push_empty.
  - unfold shlex_quote. destruct (all_safe (String c r)) eqn:Hs.
    + apply posix_words_safe, Hs.
    + simpl. rewrite string_app_assoc. exact (posix_words_single (String c r) t).
Qed.

Lemma posix_words_join a rest :
  posix_words Unquoted (shlex_join (a :: rest)) = Some (a :: rest).
Proof.
  revert a. induction rest as [|b rest IH]; intro a.
  - unfold shlex_join. simpl.
    rewrite <- (string_app_nil_r (shlex_quote a)), posix_words_quote. simpl.
    rewrite string_app_nil_r. reflexivity.
  - unfold shlex_join in *.
    change (String.concat " " (map shlex_quote (a :: b :: rest)))
      with (shlex_quote a ++ " " ++ String.concat " " (map shlex_quote (b :: rest)))%string.
    rewrite posix_words_quote.
    change (posix_words Unquoted (" " ++ String.concat " " (map shlex_quote (b :: rest))))
      with (option_map (cons "")
              (posix_words Unquoted (String.concat " " (map shlex_quote (b :: rest))))).
    rewrite IH. simpl. rewrite string_app_nil_r. reflexivity.
Qed.

Lemma shlex_join_cons_nonempty a rest : shlex_join (a :: rest) <> "".
Proof.
  unfold shlex_join. intro H. destruct a as [|c r].
  - destruct rest; discriminate H.
  - destruct rest; simpl in H; destruct (shlex_safe c && all_safe r); discriminate H.
Qed.

(** Extra X16.  [shlex.join], which [instances_exec_all] uses to show the
    command in its confirmation prompt, quotes each argument so that a
    POSIX shell reads back exactly the original arguments, including empty
    ones and ones with spaces or quotes. *)
Theorem shlex_join_round_trip args : posix_split (shlex_join args) = Some args.
Proof.
  destruct args as [|a rest]; [reflexivity|].
  unfold posix_split. destruct (shlex_join (a :: rest)) eqn:E.
  - exfalso. exact (shlex_join_cons_nonempty a rest E).
  - rewrite <- E. apply posix_words_join.
Qed.
